(** * Sitemap domain extractor: deep crawler (app.py) and fast crawler
      (streamlit_app.py)

    A shallow embedding of the two Streamlit scripts and of the parts of the
    Python standard library they call ([str] methods, [urllib.parse]), with
    the properties of the traversal engine, the classifiers, the tag
    extractor and the entry resolver.

    Conventions.
    - A Python [str] is a Rocq [string]; a character is a code point below
      256.  On that range [str.lower], [str.isspace] and [str.splitlines]
      are the tables given below, and the NFKC check of
      [urllib.parse._checknetloc] never raises.
    - A Python exception is a [Raise] result; [None] is [None].
    - The network, gzip, the XML parser and the IP-literal validation of
      [urllib.parse] are the fields of a [World]. *)

From Stdlib Require Import Ascii String ZArith Lia.
From stdpp Require Import gmap strings list sorting.

Local Open Scope char_scope.
Local Open Scope stdpp_scope.
#[local] Set Warnings "-clear-no-such-hyp".

(** ** Python [str] *)

Module Py.

Definition ord (c : ascii) : N := N_of_ascii c.

(** [str.lower] on one character. *)
Definition chr_lower (c : ascii) : ascii :=
  let n := ord c in
  if ((65 <=? n) && (n <=? 90)
      || (192 <=? n) && (n <=? 222) && negb (n =? 215))%N
  then ascii_of_N (n + 32) else c.

(** [str.isspace] on one character. *)
Definition isspace (c : ascii) : bool :=
  let n := ord c in
  ((9 <=? n) && (n <=? 13) || (28 <=? n) && (n <=? 32)
   || (n =? 133) || (n =? 160))%N.

(** Line boundaries of [str.splitlines]. *)
Definition is_linebreak (c : ascii) : bool :=
  let n := ord c in
  ((10 <=? n) && (n <=? 13) || (28 <=? n) && (n <=? 30) || (n =? 133))%N.

Definition is_ascii_alpha (c : ascii) : bool :=
  let n := ord c in
  ((65 <=? n) && (n <=? 90) || (97 <=? n) && (n <=? 122))%N.

Definition is_ascii_digit (c : ascii) : bool :=
  let n := ord c in ((48 <=? n) && (n <=? 57))%N.

(** [bool(s)]: a string is truthy when it is not empty. *)
Definition truthy (s : string) : bool :=
  match s with "" => false | String _ _ => true end.

Fixpoint lower (s : string) : string :=
  match s with
  | "" => ""
  | String c s' => String (chr_lower c) (lower s')
  end.

Fixpoint all_chars (p : ascii -> bool) (s : string) : bool :=
  match s with
  | "" => true
  | String c s' => p c && all_chars p s'
  end.

(** [c in s] for a single character [c]. *)
Fixpoint has_char (c : ascii) (s : string) : bool :=
  match s with
  | "" => false
  | String a s' => Ascii.eqb a c || has_char c s'
  end.

(** [s.startswith(p)]. *)
Definition startswith (s p : string) : bool := String.prefix p s.

(** [s.endswith(p)]: some suffix of [s] is [p]. *)
Fixpoint endswith (s p : string) : bool :=
  if String.eqb s p then true
  else match s with
       | "" => false
       | String _ s' => endswith s' p
       end.

(** [p in s]: [p] is a prefix of some suffix of [s]. *)
Fixpoint contains (s p : string) : bool :=
  if String.prefix p s then true
  else match s with
       | "" => false
       | String _ s' => contains s' p
       end.

(** [s.lstrip(chars)], [s.rstrip(chars)] for the character class [p]. *)
Fixpoint lstrip_by (p : ascii -> bool) (s : string) : string :=
  match s with
  | "" => ""
  | String c s' => if p c then lstrip_by p s' else s
  end.

Fixpoint rstrip_by (p : ascii -> bool) (s : string) : string :=
  match s with
  | "" => ""
  | String c s' =>
      match rstrip_by p s' with
      | "" => if p c then "" else String c ""
      | r => String c r
      end
  end.

Definition strip_by (p : ascii -> bool) (s : string) : string :=
  rstrip_by p (lstrip_by p s).

(** [s.strip()]. *)
Definition strip (s : string) : string := strip_by isspace s.

(** [s.replace(c, "")] for every character [c] of the class [p]. *)
Fixpoint remove_chars (p : ascii -> bool) (s : string) : string :=
  match s with
  | "" => ""
  | String c s' =>
      if p c then remove_chars p s' else String c (remove_chars p s')
  end.

(** [s[n:]]. *)
Fixpoint drop (n : nat) (s : string) : string :=
  match n, s with
  | O, _ => s
  | S n', String _ s' => drop n' s'
  | S _, "" => ""
  end.

(** [s[:-1]]. *)
Fixpoint init (s : string) : string :=
  match s with
  | "" => ""
  | String c s' => match s' with "" => "" | _ => String c (init s') end
  end.

(** The text before and after the first [c] of [s]: [s[:i]] and
    [s[i+1:]] for [i = s.find(c)], when [i >= 0]. *)
Fixpoint cut (c : ascii) (s : string) : option (string * string) :=
  match s with
  | "" => None
  | String a s' =>
      if Ascii.eqb a c then Some ("", s')
      else match cut c s' with
           | Some (x, y) => Some (String a x, y)
           | None => None
           end
  end.

(** The same for the last [c] of [s] ([s.rfind(c)]). *)
Fixpoint rcut (c : ascii) (s : string) : option (string * string) :=
  match s with
  | "" => None
  | String a s' =>
      match rcut c s' with
      | Some (x, y) => Some (String a x, y)
      | None => if Ascii.eqb a c then Some ("", s') else None
      end
  end.

(** [s.split(c, 1)]. *)
Definition split1 (c : ascii) (s : string) : list string :=
  match cut c s with
  | Some (x, y) => [x; y]
  | None => [s]
  end.

(** [s.split(c)]. *)
Fixpoint split (c : ascii) (s : string) : list string :=
  match s with
  | "" => [""]
  | String a s' =>
      if Ascii.eqb a c then "" :: split c s'
      else match split c s' with
           | x :: r => String a x :: r
           | [] => [String a ""]
           end
  end.

(** [sep.join(l)]. *)
Fixpoint join (sep : string) (l : list string) : string :=
  match l with
  | [] => ""
  | [x] => x
  | x :: r => x +:+ sep +:+ join sep r
  end.

(** The longest prefix of [s] free of the class [p], and the rest. *)
Fixpoint break (p : ascii -> bool) (s : string) : string * string :=
  match s with
  | "" => ("", "")
  | String c s' =>
      if p c then ("", s)
      else let '(x, y) := break p s' in (String c x, y)
  end.

(** [s.splitlines()]; [after_cr] is set right after a carriage return,
    whose following line feed belongs to the same line boundary. *)
Fixpoint splitlines_from (after_cr : bool) (s : string) : list string :=
  match s with
  | "" => []
  | String c s' =>
      if after_cr && Ascii.eqb c "010" then splitlines_from false s'
      else if is_linebreak c
           then "" :: splitlines_from (Ascii.eqb c "013") s'
           else match splitlines_from false s' with
                | l :: r => String c l :: r
                | [] => [String c ""]
                end
  end.

Definition splitlines (s : string) : list string := splitlines_from false s.

(** [l[i]]; [None] is an [IndexError]. *)
Definition item (i : nat) (l : list string) : option string := l !! i.

(** [l[-1]] of a list that is never empty (the result of a [split]). *)
Definition last_item (l : list string) : string := List.last l "".

(** [s in l] for a list of strings. *)
Definition in_list (s : string) (l : list string) : bool :=
  existsb (String.eqb s) l.

(** [sorted(l)] on strings: ascending in the code-point order. *)
Definition sorted (l : list string) : list string := merge_sort String.le l.

End Py.

(** ** Exceptions *)

Inductive exn := ValueError | IndexError.

Inductive result (A : Type) : Type :=
| Ok (a : A)
| Raise (e : exn).
Arguments Ok {A} a.
Arguments Raise {A} e.

Definition bind {A B : Type} (r : result A) (k : A -> result B) : result B :=
  match r with
  | Ok a => k a
  | Raise e => Raise e
  end.

Notation "x <- r ;; k" := (bind r (fun x => k))
  (at level 100, r at next level, right associativity,
   format "'[v' x  <-  r  ;;  '/' k ']'").

(** ** The environment of a run *)

(** [xml.etree.ElementTree.Element]: tag, text, children in document
    order. *)
#[warnings="-register-all"]
Inductive Element : Type :=
| Elem (tag : string) (text : option string) (children : list Element).

Definition tag (e : Element) : string := let 'Elem t _ _ := e in t.
Definition text (e : Element) : option string := let 'Elem _ x _ := e in x.
Definition children (e : Element) : list Element := let 'Elem _ _ l := e in l.

(** [requests.Response]: the fields the scripts read. *)
Record Response : Type := mkResponse {
  status_code : Z;
  resp_text : string;                (* response.text *)
  content : string;                  (* response.content *)
  content_type : option string       (* response.headers.get('Content-Type') *)
}.

Record World : Type := mkWorld {
  (** [urllib.parse._check_bracketed_host(hostname)] returns (does not
      raise [ValueError]). *)
  bracketed_host_ok : string -> bool;
  (** [requests.get(url, headers=..., timeout=...)]; [None] when it raises
      (connection error, timeout, ...). *)
  requests_get : string -> option Response;
  (** [gzip.GzipFile(fileobj=io.BytesIO(content)).read()]; [None] when it
      raises. *)
  gzip_read : string -> option string;
  (** [ET.fromstring(content)]; [None] when it raises [ParseError]. *)
  ET_fromstring : string -> option Element
}.

(** ** [urllib.parse] *)

Module Urllib.

Definition uses_relative : list string :=
  [""; "ftp"; "http"; "gopher"; "nntp"; "imap"; "wais"; "file"; "https";
   "shttp"; "mms"; "prospero"; "rtsp"; "rtspu"; "sftp"; "svn"; "svn+ssh";
   "ws"; "wss"].

Definition uses_netloc : list string :=
  [""; "ftp"; "http"; "gopher"; "nntp"; "telnet"; "imap"; "wais"; "file";
   "mms"; "https"; "shttp"; "snews"; "prospero"; "rtsp"; "rtspu"; "rsync";
   "svn"; "svn+ssh"; "sftp"; "nfs"; "git"; "git+ssh"; "ws"; "wss"].

Definition uses_params : list string :=
  [""; "ftp"; "hdl"; "prospero"; "http"; "imap"; "https"; "shttp"; "rtsp";
   "rtspu"; "sip"; "sips"; "mms"; "sftp"; "tel"].

(** [c in scheme_chars]. *)
Definition scheme_char (c : ascii) : bool :=
  Py.is_ascii_alpha c || Py.is_ascii_digit c
  || Ascii.eqb c "+" || Ascii.eqb c "-" || Ascii.eqb c ".".

(** [c in _WHATWG_C0_CONTROL_OR_SPACE]. *)
Definition c0_control_or_space (c : ascii) : bool := (Py.ord c <=? 32)%N.

(** [c in _UNSAFE_URL_BYTES_TO_REMOVE]. *)
Definition unsafe_url_byte (c : ascii) : bool :=
  Ascii.eqb c "009" || Ascii.eqb c "013" || Ascii.eqb c "010".

(** The delimiters ['/?#'] of [_splitnetloc]. *)
Definition netloc_delim (c : ascii) : bool :=
  Ascii.eqb c "/" || Ascii.eqb c "?" || Ascii.eqb c "#".

Record SplitResult : Type := mkSplit {
  s_scheme : string; s_netloc : string; s_path : string;
  s_query : string; s_fragment : string
}.

Record ParseResult : Type := mkParse {
  scheme : string; netloc : string; path : string;
  params : string; query : string; fragment : string
}.

(** [_splitparams(url)]. *)
Definition splitparams (url : string) : string * string :=
  match Py.rcut "/" url with
  | Some (dir, file) =>
      (* i = url.find(';', url.rfind('/')) *)
      match Py.cut ";" file with
      | Some (x, y) => (dir +:+ "/" +:+ x, y)
      | None => (url, "")
      end
  | None =>
      (* i = url.find(';'); url[:i], url[i+1:] *)
      match Py.cut ";" url with
      | Some (x, y) => (x, y)
      | None => (Py.init url, url)
      end
  end.

(** [_splitnetloc(url, 2)]. *)
Definition splitnetloc (url : string) : string * string :=
  Py.break netloc_delim (Py.drop 2 url).

Section Parsing.
Context (w : World).

(** [_check_bracketed_netloc(netloc)]: [true] when it returns. *)
Definition check_bracketed_netloc (netloc : string) : bool :=
  let hostname_and_port :=
    match Py.rcut "@" netloc with
    | Some (_, y) => y
    | None => netloc
    end in
  match Py.cut "[" hostname_and_port with
  | Some (before_bracket, bracketed) =>
      if Py.truthy before_bracket then false
      else
        let '(hostname, port) :=
          match Py.cut "]" bracketed with
          | Some (h, p) => (h, p)
          | None => (bracketed, "")
          end in
        if Py.truthy port && negb (Py.startswith port ":") then false
        else bracketed_host_ok w hostname
  | None =>
      let hostname :=
        match Py.cut ":" hostname_and_port with
        | Some (h, _) => h
        | None => hostname_and_port
        end in
      bracketed_host_ok w hostname
  end.

(** The scheme part of [urlsplit]: [i = url.find(':')], and when
    [i > 0], [url[0]] is an ASCII letter and every character of
    [url[:i]] is a scheme character, the scheme is [url[:i].lower()]
    and the url continues at [url[i+1:]]. *)
Definition split_scheme (scheme url : string) : string * string :=
  match Py.cut ":" url with
  | Some (String c0 _ as pre, rest) =>
      if Py.is_ascii_alpha c0 && Py.all_chars scheme_char pre
      then (Py.lower pre, rest)
      else (scheme, url)
  | _ => (scheme, url)
  end.

(** The netloc part of [urlsplit], with its bracket checks. *)
Definition split_netloc (url : string) : result (string * string) :=
  if Py.startswith url "//" then
    let '(netloc, rest) := splitnetloc url in
    if Py.has_char "[" netloc && negb (Py.has_char "]" netloc)
       || Py.has_char "]" netloc && negb (Py.has_char "[" netloc)
    then Raise ValueError
    else if Py.has_char "[" netloc && Py.has_char "]" netloc
            && negb (check_bracketed_netloc netloc)
    then Raise ValueError
    else Ok (netloc, rest)
  else Ok ("", url).

(** [urlsplit(url, scheme)]. *)
Definition urlsplit (url scheme : string) : result SplitResult :=
  let url := Py.lstrip_by c0_control_or_space url in
  let scheme := Py.strip_by c0_control_or_space scheme in
  let url := Py.remove_chars unsafe_url_byte url in
  let scheme := Py.remove_chars unsafe_url_byte scheme in
  let '(scheme, url) := split_scheme scheme url in
  nl <- split_netloc url ;;
  let '(netloc, url) := nl in
  let '(url, fragment) :=
    match Py.cut "#" url with
    | Some (u, f) => (u, f)
    | None => (url, "")
    end in
  let '(url, query) :=
    match Py.cut "?" url with
    | Some (u, q) => (u, q)
    | None => (url, "")
    end in
  Ok (mkSplit scheme netloc url query fragment).

(** [urlparse(url, scheme)]. *)
Definition urlparse_with (url scheme : string) : result ParseResult :=
  r <- urlsplit url scheme ;;
  let '(url, params) :=
    if Py.in_list (s_scheme r) uses_params && Py.has_char ";" (s_path r)
    then splitparams (s_path r)
    else (s_path r, "") in
  Ok (mkParse (s_scheme r) (s_netloc r) url params
        (s_query r) (s_fragment r)).

(** [urlparse(url)]. *)
Definition urlparse (url : string) : result ParseResult :=
  urlparse_with url "".

End Parsing.

(** [urlunsplit((scheme, netloc, url, query, fragment))]. *)
Definition urlunsplit (scheme netloc url query fragment : string) : string :=
  let url :=
    if Py.truthy netloc
       || Py.truthy scheme && Py.in_list scheme uses_netloc
          && negb (Py.startswith url "//")
    then "//" +:+ netloc +:+
         (if Py.truthy url && negb (Py.startswith url "/")
          then "/" +:+ url else url)
    else url in
  let url := if Py.truthy scheme then scheme +:+ ":" +:+ url else url in
  let url := if Py.truthy query then url +:+ "?" +:+ query else url in
  if Py.truthy fragment then url +:+ "#" +:+ fragment else url.

(** [urlunparse((scheme, netloc, url, params, query, fragment))]. *)
Definition urlunparse (scheme netloc url params query fragment : string)
  : string :=
  let url := if Py.truthy params then url +:+ ";" +:+ params else url in
  urlunsplit scheme netloc url query fragment.

(** [segments[1:-1] = filter(None, segments[1:-1])]. *)
Definition filter_inner (segments : list string) : list string :=
  match segments with
  | first :: (_ :: _) as rest =>
      first :: filter (fun s => Py.truthy s = true) (removelast rest)
               ++ [Py.last_item rest]
  | _ => segments
  end.

(** The loop of [urljoin] over the segments. *)
Fixpoint resolve (resolved_path segments : list string) : list string :=
  match segments with
  | [] => resolved_path
  | seg :: rest =>
      if String.eqb seg ".." then resolve (removelast resolved_path) rest
      else if String.eqb seg "." then resolve resolved_path rest
      else resolve (resolved_path ++ [seg]) rest
  end.

(** [urljoin(base, url)]. *)
Definition urljoin (w : World) (base url : string) : result string :=
  if negb (Py.truthy base) then Ok url
  else if negb (Py.truthy url) then Ok base
  else
    b <- urlparse_with w base "" ;;
    u <- urlparse_with w url (scheme b) ;;
    if negb (String.eqb (scheme u) (scheme b))
       || negb (Py.in_list (scheme u) uses_relative)
    then Ok url
    else if Py.in_list (scheme u) uses_netloc && Py.truthy (netloc u)
    then Ok (urlunparse (scheme u) (netloc u) (path u) (params u)
               (query u) (fragment u))
    else
      let netloc' :=
        if Py.in_list (scheme u) uses_netloc then netloc b else netloc u in
      if negb (Py.truthy (path u)) && negb (Py.truthy (params u))
      then Ok (urlunparse (scheme u) netloc' (path b) (params b)
                 (if Py.truthy (query u) then query u else query b)
                 (fragment u))
      else
        let base_parts := Py.split "/" (path b) in
        let base_parts :=
          if negb (String.eqb (Py.last_item base_parts) "")
          then removelast base_parts else base_parts in
        let segments :=
          if Py.startswith (path u) "/" then Py.split "/" (path u)
          else filter_inner (base_parts ++ Py.split "/" (path u)) in
        let resolved_path := resolve [] segments in
        let resolved_path :=
          if Py.in_list (Py.last_item segments) ["."; ".."]
          then resolved_path ++ [""] else resolved_path in
        let joined := Py.join "/" resolved_path in
        Ok (urlunparse (scheme u) netloc'
              (if Py.truthy joined then joined else "/")
              (params u) (query u) (fragment u)).

End Urllib.

(** ** What both scripts share *)

(** The body of the loop of [get_sitemap_from_robots] on one line. *)
Definition robots_line (sitemaps : list string) (line : string)
  : result (list string) :=
  if Py.startswith (Py.strip (Py.lower line)) "sitemap:" then
    match Py.item 1 (Py.split1 ":" line) with
    | Some v => Ok (sitemaps ++ [Py.strip v])
    | None => Raise IndexError
    end
  else Ok sitemaps.

(** The loop over the lines.  It runs inside [try: ... except Exception:
    pass]: an exception ends it and the list built so far is returned. *)
Fixpoint robots_lines (sitemaps : list string) (lines : list string)
  : list string :=
  match lines with
  | [] => sitemaps
  | line :: rest =>
      match robots_line sitemaps line with
      | Ok sitemaps' => robots_lines sitemaps' rest
      | Raise _ => sitemaps
      end
  end.

(** [get_sitemap_from_robots(domain_url)]; the [urljoin] is outside the
    [try]. *)
Definition get_sitemap_from_robots (w : World) (domain_url : string)
  : result (list string) :=
  robots_url <- Urllib.urljoin w domain_url "/robots.txt" ;;
  Ok match requests_get w robots_url with
     | Some response =>
         if (status_code response =? 200)%Z
         then robots_lines [] (Py.splitlines (resp_text response))
         else []
     | None => []
     end.

(** [fetch_and_parse(url)]. *)
Definition fetch_and_parse (w : World) (url : string) : option Element :=
  match requests_get w url with
  | None => None
  | Some response =>
      if negb (status_code response =? 200)%Z then None
      else if Py.endswith url ".gz"
              || bool_decide (content_type response = Some "application/x-gzip")
      then match gzip_read w (content response) with
           | None => None
           | Some content' => ET_fromstring w content'
           end
      else ET_fromstring w (content response)
  end.

(** [tag.split('}')[-1]]. *)
Definition local_name (tag : string) : string :=
  Py.last_item (Py.split "}" tag).

(** The inner loop [for sub in child], whose result is the variable [loc]:
    [None], or the stripped text of the first [loc] child. *)
Fixpoint loc_of (subs : list Element) : option string :=
  match subs with
  | [] => None
  | sub :: rest =>
      if String.eqb (local_name (tag sub)) "loc" then
        match text sub with
        | Some t => if Py.truthy t then Some (Py.strip t) else None
        | None => None
        end
      else loc_of rest
  end.

(** [loc] when the entry passes [if not loc: continue]. *)
Definition find_loc (child : Element) : option string :=
  match loc_of (children child) with
  | Some loc => if Py.truthy loc then Some loc else None
  | None => None
  end.

(** The state of a traversal: the variables of [crawler] / [fast_crawler],
    and the list of the urls handed to [fetch_and_parse] so far, which is
    not a variable of the program. *)
Record State : Type := mkState {
  queue : list string;
  visited_sitemaps : gset string;
  collected_domains : gset string;
  processed_count : nat;
  fetched : list string
}.

(** What the body of [for child in root] updates. *)
Definition Found : Type := list string * gset string.

(** [if loc not in visited_sitemaps: queue.append(loc)]. *)
Definition append_unvisited (visited : gset string) (loc : string)
  (queue : list string) : list string :=
  if decide (loc ∈ visited) then queue else queue ++ [loc].

(** [try: domain = urlparse(loc).netloc; if domain: collected_domains.add(domain)
    except: pass]. *)
Definition add_domain (w : World) (loc : string) (collected : gset string)
  : gset string :=
  match Urllib.urlparse w loc with
  | Ok parsed =>
      let domain := Urllib.netloc parsed in
      if Py.truthy domain then {[domain]} ∪ collected else collected
  | Raise _ => collected
  end.

Section Engine.
Context (w : World).
(** The branch [elif tag == 'url'], where the two scripts differ. *)
Context (url_entry : gset string -> string -> Found -> result Found).

(** The body of [for child in root]. *)
Definition on_child (visited : gset string) (st : Found) (child : Element)
  : result Found :=
  let tag := local_name (tag child) in
  match find_loc child with
  | None => Ok st
  | Some loc =>
      if String.eqb tag "sitemap"
      then Ok (append_unvisited visited loc (fst st), snd st)
      else if String.eqb tag "url" then url_entry visited loc st
      else Ok st
  end.

Fixpoint for_children (visited : gset string) (st : Found)
  (l : list Element) : result Found :=
  match l with
  | [] => Ok st
  | child :: rest =>
      st' <- on_child visited st child ;;
      for_children visited st' rest
  end.

(** One pass through the body of [while queue]. *)
Definition iteration (s : State) : result State :=
  match queue s with
  | [] => Ok s
  | current_url :: rest =>
      if decide (current_url ∈ visited_sitemaps s)
      then Ok (mkState rest (visited_sitemaps s) (collected_domains s)
                 (processed_count s) (fetched s))
      else
        let visited := {[current_url]} ∪ visited_sitemaps s in
        let log := fetched s ++ [current_url] in
        match fetch_and_parse w current_url with
        | None =>
            Ok (mkState rest visited (collected_domains s)
                  (processed_count s) log)
        | Some root =>
            st <- for_children visited (rest, collected_domains s)
                    (children root) ;;
            Ok (mkState (fst st) visited (snd st)
                  (S (processed_count s)) log)
        end
  end.

(** The state after [n] passes (or after the queue has emptied). *)
Fixpoint iterations (n : nat) (s : State) : result State :=
  match n with
  | O => Ok s
  | S n' => s' <- iteration s ;; iterations n' s'
  end.

(** [while queue: ...]; [None] when [fuel] passes do not empty the
    queue. *)
Fixpoint while_queue (fuel : nat) (s : State) : option (result State) :=
  match queue s with
  | [] => Some (Ok s)
  | _ :: _ =>
      match fuel with
      | O => None
      | S fuel' =>
          match iteration s with
          | Ok s' => while_queue fuel' s'
          | Raise e => Some (Raise e)
          end
      end
  end.

Definition initial_state (start_sitemaps : list string) : State :=
  mkState start_sitemaps ∅ ∅ 0 [].

(** The whole function: the loop, then
    [return sorted(list(collected_domains))]. *)
Definition traversal (fuel : nat) (start_sitemaps : list string)
  : option (result (list string)) :=
  match while_queue fuel (initial_state start_sitemaps) with
  | Some (Ok s) => Some (Ok (Py.sorted (elements (collected_domains s))))
  | Some (Raise e) => Some (Raise e)
  | None => None
  end.

End Engine.

(** ** app.py: the deep crawler *)

(** [is_sitemap_url(url)]. *)
Definition is_sitemap_url (url : string) : bool :=
  let u := Py.lower url in
  Py.endswith u ".xml" || Py.endswith u ".xml.gz" || Py.contains u "sitemap".

(** The [url] branch of [crawler]. *)
Definition crawler_url (w : World) (visited : gset string) (loc : string)
  (st : Found) : result Found :=
  if is_sitemap_url loc
  then Ok (append_unvisited visited loc (fst st), snd st)
  else Ok (fst st, add_domain w loc (snd st)).

(** [crawler(start_sitemaps)]. *)
Definition crawler (w : World) (fuel : nat) (start_sitemaps : list string)
  : option (result (list string)) :=
  traversal w (crawler_url w) fuel start_sitemaps.

(** ** streamlit_app.py: the fast crawler *)

(** [is_homepage(url)]. *)
Definition is_homepage (w : World) (url : string) : result bool :=
  parsed <- Urllib.urlparse w url ;;
  let path := Urllib.path parsed in
  Ok (Py.in_list path [""; "/"]).

(** The [url] branch of [fast_crawler]; the call of [is_homepage] is not
    inside the [try]. *)
Definition fast_crawler_url (w : World) (visited : gset string)
  (loc : string) (st : Found) : result Found :=
  homepage <- is_homepage w loc ;;
  if homepage then Ok (fst st, add_domain w loc (snd st)) else Ok st.

(** [fast_crawler(start_sitemaps)]. *)
Definition fast_crawler (w : World) (fuel : nat)
  (start_sitemaps : list string) : option (result (list string)) :=
  traversal w (fast_crawler_url w) fuel start_sitemaps.

(** ** The entry point of both scripts *)


(** [initial_sitemaps] after the robots.txt step and its fallback. *)
Definition initial_sitemaps (w : World) (url_input : string)
  : result (list string) :=
  found <- get_sitemap_from_robots w url_input ;;
  match found with
  | [] =>
      fallback <- Urllib.urljoin w url_input "sitemap.xml" ;;
      Ok [fallback]
  | _ :: _ => Ok found
  end.


(** ["\n".join(results)]. *)
Definition results_string (results : list string) : string :=
  Py.join (String "010" "") results.

(** ** Vocabulary of the statements *)

(** [s] ends with [p]; [p] occurs in [s]. *)
Definition ends_with (s p : string) : Prop := ∃ pre, s = pre +:+ p.
Definition starts_with (s p : string) : Prop := ∃ post, s = p +:+ post.
Definition occurs_in (p s : string) : Prop := ∃ pre post, s = pre +:+ p +:+ post.

(** Every character of [s] is in the class [p]. *)
Definition only_chars (p : ascii -> bool) (s : string) : Prop :=
  Py.all_chars p s = true.

(** [c] does not occur in [s]. *)
Definition free_of (c : ascii) (s : string) : Prop := Py.has_char c s = false.

(** [r] is [t] without its leading and trailing characters of the class
    [p]. *)
Definition trimmed_of (p : ascii -> bool) (r t : string) : Prop :=
  (∃ l r', t = l +:+ r +:+ r' ∧ only_chars p l ∧ only_chars p r')
  ∧ (∀ c s, r = String c s → p c = false)
  ∧ (∀ s c, r = s +:+ String c "" → p c = false).

(** [findLoc] in the words of the specification: the trimmed text of the
    first immediate child whose local name is [loc]; absent when there is no
    such child or its text is missing, empty or all white space. *)
Definition find_loc_as_specified (e : Element) : option string :=
  match List.find (fun sub => String.eqb (local_name (tag sub)) "loc")
          (children e) with
  | None => None
  | Some sub =>
      match text sub with
      | None => None
      | Some t => if Py.all_chars Py.isspace t then None else Some (Py.strip t)
      end
  end.

(** The payload of [response] is selected for decompression. *)
Definition selected_for_gunzip (url : string) (response : Response) : Prop :=
  ends_with url ".gz" ∨ content_type response = Some "application/x-gzip".

(** [body] is what [fetch_and_parse] hands to the XML parser. *)
Definition decoded (w : World) (url : string) (response : Response)
  (body : string) : Prop :=
  (selected_for_gunzip url response ∧ gzip_read w (content response) = Some body)
  ∨ (¬ selected_for_gunzip url response ∧ body = content response).

(** The failures of the fetcher. *)
Inductive fetch_failure (w : World) (url : string) : Prop :=
| NetworkFailure :
    requests_get w url = None → fetch_failure w url
| StatusFailure response :
    requests_get w url = Some response →
    status_code response ≠ 200%Z → fetch_failure w url
| DecodeFailure response :
    requests_get w url = Some response →
    status_code response = 200%Z →
    selected_for_gunzip url response →
    gzip_read w (content response) = None → fetch_failure w url
| ParseFailure response body :
    requests_get w url = Some response →
    status_code response = 200%Z →
    decoded w url response body →
    ET_fromstring w body = None → fetch_failure w url.

(** The state after the pass that abandons [url]: marked visited, nothing
    else of the results touched. *)
Definition abandoned (url : string) (rest : list string) (s : State) : State :=
  mkState rest ({[url]} ∪ visited_sitemaps s) (collected_domains s)
    (processed_count s) (fetched s ++ [url]).

(** The deep rule for a [url] entry in the words of the specification:
    enqueue when [is_sitemap_url] holds and [loc] is not visited, otherwise
    extract the domain. *)
Definition crawler_url_as_specified (w : World) (visited : gset string)
  (loc : string) (st : Found) : result Found :=
  if is_sitemap_url loc && bool_decide (loc ∉ visited)
  then Ok (fst st ++ [loc], snd st)
  else Ok (fst st, add_domain w loc (snd st)).

(** A world with no network: every request raises. *)
Definition offline : World :=
  mkWorld (fun _ => true) (fun _ => None) (fun _ => None) (fun _ => None).

(** [<tag><loc>l</loc></tag>], with or without the sitemap namespace. *)
Definition entry (tag l : string) : Element :=
  Elem tag None [Elem "loc" (Some l) []].

Definition sitemaps_ns : string :=
  "{http://www.sitemaps.org/schemas/sitemap/0.9}".

Definition ns_entry (tag l : string) : Element :=
  Elem (sitemaps_ns +:+ tag) None [Elem (sitemaps_ns +:+ "loc") (Some l) []].

(** What the two [url] rules have in common: a rule that returns appends
    at most [loc] to the queue, and only when [loc] is not visited, and
    never removes a domain. *)
Definition rule_sound (rule : gset string → string → Found → result Found)
  : Prop :=
  ∀ visited loc st st', rule visited loc st = Ok st' →
    (fst st' = fst st ∨ (fst st' = fst st ++ [loc] ∧ loc ∉ visited))
    ∧ snd st ⊆ snd st'.

(** The rule of one of the two scripts. *)
Definition script_rule (w : World)
  (rule : gset string → string → Found → result Found) : Prop :=
  rule = crawler_url w ∨ rule = fast_crawler_url w.

(** The urls that were in the queue or dequeued so far. *)
Definition encountered (s : State) : gset string :=
  list_to_set (queue s) ∪ visited_sitemaps s.

(** What holds of every state of a run. *)
Record consistent (s : State) : Prop := mkConsistent {
  fetched_once : NoDup (fetched s);
  fetched_visited : ∀ u, u ∈ fetched s ↔ u ∈ visited_sitemaps s
}.

(** [s'] is a later state than [s]: nothing was removed from the visited
    set, the domains or the log of fetches. *)
Record later (s s' : State) : Prop := mkLater {
  visited_grows : visited_sitemaps s ⊆ visited_sitemaps s';
  domains_grow : collected_domains s ⊆ collected_domains s';
  fetched_grows : fetched s `prefix_of` fetched s';
  encountered_grows : encountered s ⊆ encountered s'
}.

(** A world that serves the documents of [docs]: a request for a listed url
    is answered with status 200 and a payload that parses to its document;
    every other request raises. *)
Definition serving (docs : list (string * Element)) : World :=
  let doc_at (key : string) : option Element :=
    snd <$> List.find (fun d => String.eqb (fst d) key) docs in
  mkWorld (fun _ => true)
    (fun url => match doc_at url with
                | Some _ => Some (mkResponse 200 "" url None)
                | None => None
                end)
    (fun _ => None)
    doc_at.

(** Two sitemap indexes that refer to each other. *)
Definition cyclic_docs : list (string * Element) :=
  [("https://a.com/A.xml",
    Elem "sitemapindex" None [entry "sitemap" "https://a.com/B.xml"]);
   ("https://a.com/B.xml",
    Elem "sitemapindex" None [entry "sitemap" "https://a.com/A.xml"])].

(** The state of the deep crawl of the two cyclic indexes when its queue
    has emptied. *)
Definition cyclic_final : State :=
  mkState [] {["https://a.com/A.xml"; "https://a.com/B.xml"]} ∅ 2
    ["https://a.com/A.xml"; "https://a.com/B.xml"].

(** The three ways through the body of the loop. *)
Inductive pass (w : World) (s : State) : State → Prop :=
| pass_skip url rest :
    queue s = url :: rest → url ∈ visited_sitemaps s →
    pass w s (mkState rest (visited_sitemaps s) (collected_domains s)
                (processed_count s) (fetched s))
| pass_failed url rest :
    queue s = url :: rest → url ∉ visited_sitemaps s →
    fetch_and_parse w url = None →
    pass w s (abandoned url rest s)
| pass_fetched url rest root added domains :
    queue s = url :: rest → url ∉ visited_sitemaps s →
    fetch_and_parse w url = Some root →
    length added ≤ length (children root) →
    (∀ u, u ∈ added → u ∉ {[url]} ∪ visited_sitemaps s) →
    collected_domains s ⊆ domains →
    pass w s (mkState (rest ++ added) ({[url]} ∪ visited_sitemaps s) domains
                (S (processed_count s)) (fetched s ++ [url])).

(** The number of entries of the document at [u] (none when the fetch
    fails). *)
Definition entries (w : World) (u : string) : nat :=
  match fetch_and_parse w u with
  | Some root => length (children root)
  | None => 0
  end.

(** The entries of the documents of [sites] that are not visited yet. *)
Fixpoint pending (w : World) (sites : list string) (visited : gset string)
  : nat :=
  match sites with
  | [] => 0
  | u :: rest =>
      (if decide (u ∈ visited) then 0 else entries w u) + pending w rest visited
  end.

(** A finite sitemap graph: the urls that can be fetched are among
    [sites]. *)
Definition finite_graph (w : World) (sites : list string) : Prop :=
  ∀ u, fetch_and_parse w u ≠ None → u ∈ sites.

(** What bounds the passes of the loop: every seed and every entry of a
    document is dequeued at most once. *)
Definition measure (w : World) (sites : list string) (s : State) : nat :=
  length (queue s) + pending w sites (visited_sitemaps s).

Definition budget (w : World) (sites seeds : list string) : nat :=
  length seeds + pending w sites ∅.

(** The rule returns on every document that can be fetched. *)
Definition returns_on_graph (w : World)
  (rule : gset string → string → Found → result Found) : Prop :=
  ∀ u root visited st, fetch_and_parse w u = Some root →
    ∃ st', for_children rule visited st (children root) = Ok st'.

(** [is_homepage] returns on the loc of every [url] entry of the graph. *)
Definition homepage_check_returns (w : World) : Prop :=
  ∀ u root child loc,
    fetch_and_parse w u = Some root → child ∈ children root →
    local_name (tag child) = "url" → find_loc child = Some loc →
    ∃ b, is_homepage w loc = Ok b.

(** The bound of the specification: the loop is over after as many passes
    as there are distinct urls encountered. *)
Definition finishes_within_distinct_urls (w : World)
  (rule : gset string → string → Found → result Found)
  (seeds : list string) : Prop :=
  ∀ fuel s,
    while_queue w rule fuel (initial_state seeds) = Some (Ok s) →
    while_queue w rule (size (visited_sitemaps s)) (initial_state seeds)
    = Some (Ok s).

(** An index A that lists B and C, where B lists C as well. *)
Definition diamond_docs : list (string * Element) :=
  [("https://a.com/A.xml",
    Elem "sitemapindex" None
      [entry "sitemap" "https://a.com/B.xml";
       entry "sitemap" "https://a.com/C.xml"]);
   ("https://a.com/B.xml",
    Elem "sitemapindex" None [entry "sitemap" "https://a.com/C.xml"]);
   ("https://a.com/C.xml",
    Elem "urlset" None [entry "url" "https://a.com/"])].

(** A document whose only entry is a [url] entry with a loc that
    [urlparse] rejects (an opening bracket without its closing one). *)
Definition bad_loc_docs : list (string * Element) :=
  [("https://a.com/sitemap.xml",
    Elem "urlset" None [entry "url" "http://["])].

(** The shape of a collected domain: not empty, none of the delimiters
    ['/'], ['?'], ['#'], and the netloc of some url that parses. *)
Definition domain_shape (w : World) (d : string) : Prop :=
  d ≠ ""
  ∧ only_chars (fun c => negb (Urllib.netloc_delim c)) d
  ∧ ∃ loc p, Urllib.urlparse w loc = Ok p ∧ Urllib.netloc p = d.

(** The rule adds only domains that satisfy [P]. *)
Definition rule_keeps (P : string → Prop)
  (rule : gset string → string → Found → result Found) : Prop :=
  ∀ visited loc st st', rule visited loc st = Ok st' →
    (∀ d, d ∈ snd st → P d) → ∀ d, d ∈ snd st' → P d.

(** A line of robots.txt that [get_sitemap_from_robots] takes for a sitemap
    directive, and the value it keeps of such a line. *)
Definition is_directive (line : string) : bool :=
  Py.startswith (Py.strip (Py.lower line)) "sitemap:".

Definition directive_value (line : string) : string :=
  match Py.cut ":" line with
  | Some (_, v) => Py.strip v
  | None => ""
  end.

(** The entry [child] asks for the url [v] to be visited: it is a [sitemap]
    entry with the loc [v], or a [url] entry whose loc [v] the script
    follows. *)
Definition links_to (follows : string → Prop) (child : Element) (v : string)
  : Prop :=
  find_loc child = Some v
  ∧ (local_name (tag child) = "sitemap"
     ∨ local_name (tag child) = "url" ∧ follows v).

(** The entry [child] is a [url] entry whose loc the script takes for a
    page, and [d] is the netloc of that loc, not empty. *)
Definition gives_domain (w : World) (accepts : string → Prop)
  (child : Element) (d : string) : Prop :=
  ∃ loc p, find_loc child = Some loc ∧ local_name (tag child) = "url"
           ∧ accepts loc
           ∧ Urllib.urlparse w loc = Ok p ∧ Urllib.netloc p = d ∧ d ≠ "".

(** The urls of the sitemap graph that can be reached from the seeds,
    through the documents that can be fetched. *)
Inductive reachable (w : World) (follows : string → Prop)
  (seeds : list string) : string → Prop :=
| reach_seed u : u ∈ seeds → reachable w follows seeds u
| reach_link u root child v :
    reachable w follows seeds u → fetch_and_parse w u = Some root →
    child ∈ children root → links_to follows child v →
    reachable w follows seeds v.

(** The domains of the pages listed in the documents of [urls]. *)
Definition listed_domain (w : World) (accepts : string → Prop)
  (urls : string → Prop) (d : string) : Prop :=
  ∃ u root child, urls u ∧ fetch_and_parse w u = Some root
                  ∧ child ∈ children root ∧ gives_domain w accepts child d.

(** What a rule that returns does with the loc of a [url] entry: it appends
    the loc to the queue (when not visited) exactly when it follows it, and
    it collects its domain exactly when it accepts it. *)
Record rule_policy (w : World) (follows accepts : string → Prop)
  (rule : gset string → string → Found → result Found) : Prop := mkPolicy {
  policy_queue : ∀ visited loc st st', rule visited loc st = Ok st' →
    (follows loc ∧ fst st' = append_unvisited visited loc (fst st))
    ∨ (¬ follows loc ∧ fst st' = fst st);
  policy_domains : ∀ visited loc st st', rule visited loc st = Ok st' →
    (accepts loc ∧ snd st' = add_domain w loc (snd st))
    ∨ (¬ accepts loc ∧ snd st' = snd st)
}.

(** The policy of [crawler]: a loc that looks like a sitemap is followed,
    any other is a page. *)
Definition deep_follows (loc : string) : Prop := is_sitemap_url loc = true.
Definition deep_accepts (loc : string) : Prop := is_sitemap_url loc = false.

(** The policy of [fast_crawler]: no loc of a [url] entry is followed, and a
    homepage is a page. *)
Definition fast_follows (loc : string) : Prop := False.
Definition fast_accepts (w : World) (loc : string) : Prop :=
  is_homepage w loc = Ok true.

(** What holds of the states of a run from [seeds], for a rule with the
    policy [follows], [accepts]. *)
Record explored (w : World) (follows accepts : string → Prop)
  (seeds : list string) (s : State) : Prop := mkExplored {
  explored_reach : ∀ u, u ∈ visited_sitemaps s ∨ u ∈ queue s →
    reachable w follows seeds u;
  explored_seeds : ∀ u, u ∈ seeds → u ∈ visited_sitemaps s ∨ u ∈ queue s;
  explored_links : ∀ u root child v,
    u ∈ visited_sitemaps s → fetch_and_parse w u = Some root →
    child ∈ children root → links_to follows child v →
    v ∈ visited_sitemaps s ∨ v ∈ queue s;
  explored_domains : ∀ d,
    d ∈ collected_domains s
    ↔ listed_domain w accepts (fun u => u ∈ visited_sitemaps s) d
}.

(** The scenario of two documents: an index that refers to a sitemap with a
    homepage and a page of another host. *)
Definition scenario_docs : list (string * Element) :=
  [("https://a.com/sitemap_index.xml",
    Elem (sitemaps_ns +:+ "sitemapindex") None
      [ns_entry "sitemap" "https://a.com/sitemap1.xml"]);
   ("https://a.com/sitemap1.xml",
    Elem (sitemaps_ns +:+ "urlset") None
      [ns_entry "url" "https://a.com/";
       ns_entry "url" "https://blog.a.com/post"])].

(** The rule of one of the two scripts, with its policy. *)
Inductive script_policy (w : World)
  : (string → Prop) → (string → Prop)
    → (gset string → string → Found → result Found) → Prop :=
| deep_policy : script_policy w deep_follows deep_accepts (crawler_url w)
| fast_policy :
    script_policy w fast_follows (fast_accepts w) (fast_crawler_url w).

(** [child] is an entry with the tag [name] (with or without a namespace)
    and the loc [loc]. *)
Definition is_entry (name loc : string) (child : Element) : Prop :=
  local_name (tag child) = name ∧ find_loc child = Some loc.

(** The end-to-end scenario: the seed is an index with one [sitemap] entry
    for sitemap1.xml, and sitemap1.xml has the two [url] entries
    "https://a.com/" and "https://blog.a.com/post". *)
Definition scenario (w : World) : Prop :=
  ∃ index urlset e1 e2 e3,
    fetch_and_parse w "https://a.com/sitemap_index.xml" = Some index
    ∧ children index = [e1]
    ∧ is_entry "sitemap" "https://a.com/sitemap1.xml" e1
    ∧ fetch_and_parse w "https://a.com/sitemap1.xml" = Some urlset
    ∧ children urlset = [e2; e3]
    ∧ is_entry "url" "https://a.com/" e2
    ∧ is_entry "url" "https://blog.a.com/post" e3.

(** * Properties *)

(** ** Strings *)

Section StringFacts.

Lemma str_app_nil_l (s : string) : "" +:+ s = s.
Proof. reflexivity. Qed.

Lemma str_app_cons (c : ascii) (s t : string) :
  String c s +:+ t = String c (s +:+ t).
Proof. reflexivity. Qed.

Lemma str_app_nil_r (s : string) : s +:+ "" = s.
Proof. induction s as [|c s IH]; [done|]. by rewrite str_app_cons, IH. Qed.

Lemma str_app_assoc (s t u : string) : (s +:+ t) +:+ u = s +:+ t +:+ u.
Proof.
  induction s as [|c s IH]; [done|]. by rewrite !str_app_cons, IH.
Qed.


Lemma str_app_eq_nil (s t : string) : s +:+ t = "" → s = "" ∧ t = "".
Proof. destruct s; [done|]. by rewrite str_app_cons. Qed.

Lemma prefix_starts (p s : string) :
  String.prefix p s = true ↔ starts_with s p.
Proof.
  revert s. induction p as [|c p IH]; intros s.
  - split; [intros _; by exists s|]. by destruct s.
  - destruct s as [|a s]; simpl.
    + split; [done|]. intros [r Hr]. by rewrite str_app_cons in Hr.
    + destruct (ascii_dec c a) as [->|Hne].
      * rewrite IH. split; intros [r Hr]; exists r.
        -- by rewrite str_app_cons, Hr.
        -- rewrite str_app_cons in Hr. by simplify_eq.
      * split; [done|]. intros [r Hr]. rewrite str_app_cons in Hr.
        by simplify_eq.
Qed.

Lemma startswith_spec (s p : string) :
  Py.startswith s p = true ↔ starts_with s p.
Proof. apply prefix_starts. Qed.

Lemma endswith_unfold (s p : string) :
  Py.endswith s p =
  if String.eqb s p then true
  else match s with "" => false | String _ s' => Py.endswith s' p end.
Proof. by destruct s. Qed.

Lemma contains_unfold (s p : string) :
  Py.contains s p =
  if String.prefix p s then true
  else match s with "" => false | String _ s' => Py.contains s' p end.
Proof. by destruct s. Qed.

Lemma endswith_spec (s p : string) :
  Py.endswith s p = true ↔ ends_with s p.
Proof.
  induction s as [|c s IH]; rewrite endswith_unfold;
    [destruct (String.eqb_spec "" p) as [<-|Hne]
    |destruct (String.eqb_spec (String c s) p) as [<-|Hne]];
    try (split; [intros _; by exists ""|done]).
  - split; [done|]. intros [pre Hp]. symmetry in Hp.
    apply str_app_eq_nil in Hp as [_ ->]. done.
  - rewrite IH. split.
    + intros [pre ->]. exists (String c pre). by rewrite str_app_cons.
    + intros [[|a pre] Hp].
      * by rewrite str_app_nil_l in Hp.
      * rewrite str_app_cons in Hp. simplify_eq. by exists pre.
Qed.

Lemma contains_spec (s p : string) :
  Py.contains s p = true ↔ occurs_in p s.
Proof.
  induction s as [|c s IH]; rewrite contains_unfold;
    destruct (String.prefix p _) eqn:Hp;
    try (apply prefix_starts in Hp as [r Hr];
         split; [intros _; by exists "", r|done]).
  - split; [done|]. intros [pre [post H]]. symmetry in H.
    apply str_app_eq_nil in H as [-> H]. apply str_app_eq_nil in H as [-> _].
    done.
  - rewrite IH. split.
    + intros [pre [post ->]]. exists (String c pre), post.
      by rewrite str_app_cons.
    + intros [[|a pre] [post H]].
      * rewrite str_app_nil_l in H.
        assert (String.prefix p (String c s) = true) as Ht
          by (apply prefix_starts; by exists post).
        congruence.
      * rewrite str_app_cons in H. simplify_eq. by exists pre, post.
Qed.

Lemma lower_app (s t : string) :
  Py.lower (s +:+ t) = Py.lower s +:+ Py.lower t.
Proof.
  induction s as [|c s IH]; [done|]. rewrite !str_app_cons. simpl.
  by rewrite IH, str_app_cons.
Qed.

Lemma chr_lower_idem (c : ascii) :
  Py.chr_lower (Py.chr_lower c) = Py.chr_lower c.
Proof. by destruct c as [[] [] [] [] [] [] [] []]; vm_compute. Qed.

Lemma lower_idem (s : string) : Py.lower (Py.lower s) = Py.lower s.
Proof.
  induction s as [|c s IH]; [done|]. simpl. by rewrite chr_lower_idem, IH.
Qed.

Lemma lstrip_by_split (p : ascii → bool) (s : string) :
  ∃ l, s = l +:+ Py.lstrip_by p s ∧ only_chars p l.
Proof.
  induction s as [|c s [l [Hs Hl]]]; [by exists ""|]. simpl.
  destruct (p c) eqn:Hc; [|by exists ""].
  exists (String c l). rewrite str_app_cons, <- Hs. split; [done|].
  unfold only_chars. simpl. by rewrite Hc.
Qed.

Lemma lstrip_by_head (p : ascii → bool) (s : string) c r :
  Py.lstrip_by p s = String c r → p c = false.
Proof.
  induction s as [|a s IH]; [done|]. simpl.
  destruct (p a) eqn:Ha; [done|]. intros [= -> _]. done.
Qed.

Lemma lstrip_by_nil (p : ascii → bool) (s : string) :
  Py.lstrip_by p s = "" ↔ only_chars p s.
Proof.
  unfold only_chars. induction s as [|a s IH]; [done|]. simpl.
  destruct (p a); simpl; [done|]. split; done.
Qed.

Lemma rstrip_by_split (p : ascii → bool) (s : string) :
  ∃ r, s = Py.rstrip_by p s +:+ r ∧ only_chars p r.
Proof.
  induction s as [|c s [r [Hs Hr]]]; [by exists ""|]. simpl.
  destruct (Py.rstrip_by p s) as [|b u] eqn:Hu.
  - destruct (p c) eqn:Hc.
    + exists (String c r). rewrite str_app_nil_l in *. subst s. split; [done|].
      unfold only_chars. simpl. by rewrite Hc.
    + exists r. rewrite str_app_cons, str_app_nil_l. rewrite str_app_nil_l in Hs.
      by subst s.
  - exists r. by rewrite str_app_cons, <- Hs.
Qed.

Lemma rstrip_by_last (p : ascii → bool) (s u : string) c :
  Py.rstrip_by p s = u +:+ String c "" → p c = false.
Proof.
  revert u. induction s as [|a s IH]; intros u.
  - simpl. destruct u; by rewrite ?str_app_cons.
  - simpl. destruct (Py.rstrip_by p s) as [|b v] eqn:Hv.
    + destruct (p a) eqn:Ha.
      * destruct u; by rewrite ?str_app_cons.
      * destruct u as [|x [|y u]]; rewrite ?str_app_cons, ?str_app_nil_l;
          intros [=]; by subst.
    + destruct u as [|x u]; rewrite ?str_app_cons, ?str_app_nil_l; [done|].
      intros [= -> Hu]. by apply (IH u).
Qed.

Lemma rstrip_by_head (p : ascii → bool) (s : string) c r :
  Py.rstrip_by p s = String c r → ∃ r', s = String c r'.
Proof.
  destruct s as [|a s]; [done|]. simpl.
  destruct (Py.rstrip_by p s); [destruct (p a)|]; intros [=]; subst; eauto.
Qed.

Lemma rstrip_by_nil (p : ascii → bool) (s : string) :
  Py.rstrip_by p s = "" ↔ only_chars p s.
Proof.
  unfold only_chars. induction s as [|a s IH]; [done|]. simpl.
  destruct (Py.rstrip_by p s) as [|b v].
  - destruct (p a); simpl; [|split; done].
    split; [intros _; by apply IH|done].
  - split; [done|]. intros H. apply andb_true_iff in H as [_ H].
    by apply IH in H.
Qed.

Lemma only_chars_app (p : ascii → bool) (s t : string) :
  only_chars p (s +:+ t) ↔ only_chars p s ∧ only_chars p t.
Proof.
  unfold only_chars. induction s as [|a s IH];
    [rewrite str_app_nil_l; simpl; intuition|].
  rewrite str_app_cons. simpl. rewrite !andb_true_iff, IH. tauto.
Qed.

Lemma strip_by_trimmed (p : ascii → bool) (t : string) :
  trimmed_of p (Py.strip_by p t) t.
Proof.
  unfold Py.strip_by. split_and!.
  - destruct (lstrip_by_split p t) as [l [Ht Hl]].
    destruct (rstrip_by_split p (Py.lstrip_by p t)) as [r [Hu Hr]].
    exists l, r. by rewrite <- Hu.
  - intros c s Hs. apply rstrip_by_head in Hs as [r' Hs].
    by apply lstrip_by_head in Hs.
  - intros s c Hs. by apply rstrip_by_last in Hs.
Qed.

Lemma strip_by_nil (p : ascii → bool) (t : string) :
  Py.strip_by p t = "" ↔ only_chars p t.
Proof.
  unfold Py.strip_by. rewrite rstrip_by_nil. split.
  - intros H. destruct (lstrip_by_split p t) as [l [Ht Hl]].
    rewrite Ht. by apply only_chars_app.
  - intros H. apply lstrip_by_nil in H. by rewrite H.
Qed.

Lemma truthy_false (s : string) : Py.truthy s = false ↔ s = "".
Proof. by destruct s. Qed.

Lemma truthy_true (s : string) : Py.truthy s = true ↔ s ≠ "".
Proof. by destruct s. Qed.

Lemma split_free (c : ascii) (s : string) :
  free_of c s → Py.split c s = [s].
Proof.
  unfold free_of. induction s as [|a s IH]; [done|]. simpl.
  destruct (Ascii.eqb a c); [done|]. simpl. intros H. by rewrite IH.
Qed.

Lemma split_app_sep (c : ascii) (s t : string) :
  ∃ x l, Py.split c (s +:+ String c t) = x :: l ++ Py.split c t.
Proof.
  induction s as [|a s [x [l IH]]].
  - exists "", []. rewrite str_app_nil_l. simpl. by rewrite Ascii.eqb_refl.
  - rewrite str_app_cons. simpl. rewrite IH. destruct (Ascii.eqb a c).
    + by exists "", (x :: l).
    + by exists (String a x), l.
Qed.

Lemma split_not_nil (c : ascii) (s : string) : Py.split c s ≠ [].
Proof.
  destruct s as [|a s]; [done|]. simpl.
  destruct (Ascii.eqb a c); [done|]. by destruct (Py.split c s).
Qed.

Lemma last_app_not_nil (l1 l2 : list string) (d : string) :
  l2 ≠ [] → List.last (l1 ++ l2) d = List.last l2 d.
Proof.
  intros H. induction l1 as [|x l1 IH]; [done|].
  simpl. rewrite IH. destruct (l1 ++ l2) eqn:E; [|done].
  apply List.app_eq_nil in E as [_ ->]. done.
Qed.

Lemma split_last_app (c : ascii) (s t : string) :
  Py.last_item (Py.split c (s +:+ String c t)) = Py.last_item (Py.split c t).
Proof.
  unfold Py.last_item. destruct (split_app_sep c s t) as [x [l ->]].
  apply (last_app_not_nil (x :: l)), split_not_nil.
Qed.

End StringFacts.

(** ** The classifiers *)

(** The claim as the specification words it: the two suffix tests on [loc]
    itself, the substring test on the lowercased [loc]. *)
Definition is_sitemap_url_as_specified (loc : string) : Prop :=
  is_sitemap_url loc = true ↔
  ends_with loc ".xml" ∨ ends_with loc ".xml.gz"
  ∨ occurs_in "sitemap" (Py.lower loc).

(** C6, as stated, fails: an upper-case extension is accepted by the code,
    which tests the suffixes on the lowercased url. *)
Lemma is_sitemap_url_upper_case_suffix :
  ¬ is_sitemap_url_as_specified "https://a.com/PAGE.XML".
Proof.
  intros [Hcode _]. specialize (Hcode eq_refl).
  rewrite <- !endswith_spec, <- contains_spec in Hcode.
  vm_compute in Hcode. destruct Hcode as [H|[H|H]]; discriminate H.
Qed.

(** C6 (amended): [is_sitemap_url loc] is true exactly when the lowercased
    [loc] ends with ".xml" or with ".xml.gz" or contains "sitemap"; in
    particular it is true whenever [loc] itself ends with ".xml" or
    ".xml.gz". *)
Theorem is_sitemap_url_spec (loc : string) :
  (is_sitemap_url loc = true ↔
     ends_with (Py.lower loc) ".xml" ∨ ends_with (Py.lower loc) ".xml.gz"
     ∨ occurs_in "sitemap" (Py.lower loc))
  ∧ (ends_with loc ".xml" ∨ ends_with loc ".xml.gz" →
     is_sitemap_url loc = true).
Proof.
  assert (is_sitemap_url loc = true ↔
     ends_with (Py.lower loc) ".xml" ∨ ends_with (Py.lower loc) ".xml.gz"
     ∨ occurs_in "sitemap" (Py.lower loc)) as Hiff.
  { unfold is_sitemap_url.
    rewrite !orb_true_iff, !endswith_spec, contains_spec. tauto. }
  split; [exact Hiff|].
  intros H. apply Hiff.
  destruct H as [[pre ->]|[pre ->]]; [left|right; left];
    exists (Py.lower pre); by rewrite lower_app.
Qed.



(** ** The tag extractor *)

Lemma local_name_braced (ns name : string) :
  free_of "}" name → local_name ("{" +:+ ns +:+ "}" +:+ name) = name.
Proof.
  intros H. unfold local_name.
  change ("{" +:+ ns +:+ "}" +:+ name) with (String "{" ns +:+ String "}" name).
  rewrite split_last_app, split_free; done.
Qed.

Lemma local_name_plain (name : string) :
  free_of "}" name → local_name name = name.
Proof. intros H. unfold local_name. by rewrite split_free. Qed.

Lemma loc_of_find (subs : list Element) :
  loc_of subs =
  match List.find (fun sub => String.eqb (local_name (tag sub)) "loc") subs with
  | None => None
  | Some sub =>
      match text sub with
      | Some t => if Py.truthy t then Some (Py.strip t) else None
      | None => None
      end
  end.
Proof.
  induction subs as [|sub rest IH]; [done|]. simpl.
  by destruct (String.eqb (local_name (tag sub)) "loc").
Qed.

Lemma find_loc_refines (e : Element) : find_loc e = find_loc_as_specified e.
Proof.
  unfold find_loc, find_loc_as_specified. rewrite loc_of_find.
  destruct (List.find _ (children e)) as [sub|]; [|done].
  destruct (text sub) as [t|]; [|done].
  destruct (Py.truthy t) eqn:Ht.
  - destruct (Py.all_chars Py.isspace t) eqn:Hs.
    + apply strip_by_nil in Hs. unfold Py.strip. by rewrite Hs.
    + destruct (Py.truthy (Py.strip t)) eqn:Hr; [done|].
      apply truthy_false, strip_by_nil in Hr. unfold only_chars in Hr. congruence.
  - apply truthy_false in Ht. by subst t.
Qed.

Lemma on_child_no_loc (rule : gset string → string → Found → result Found)
    (visited : gset string) (st : Found) (child : Element) :
  find_loc child = None → on_child rule visited st child = Ok st.
Proof. intros H. unfold on_child. by rewrite H. Qed.

(** C9: the local name of a tag is the same with and without a namespace
    prefix; [find_loc] is the trimmed text of the first immediate child
    whose local name is "loc", and is absent when there is no such child or
    its text is missing, empty or all white space; an entry without a loc is
    skipped by the traversal. *)
Theorem tag_extractor_spec :
  local_name "{http://www.sitemaps.org/schemas/sitemap/0.9}loc" = "loc"
  ∧ local_name "loc" = "loc"
  ∧ (∀ ns name, free_of "}" name →
       local_name ("{" +:+ ns +:+ "}" +:+ name) = name
       ∧ local_name name = name)
  ∧ (∀ e, find_loc e = find_loc_as_specified e)
  ∧ (∀ t, trimmed_of Py.isspace (Py.strip t) t)
  ∧ (∀ t, Py.strip t = "" ↔ only_chars Py.isspace t)
  ∧ (∀ rule visited st child,
       find_loc child = None → on_child rule visited st child = Ok st).
Proof.
  split_and!; try reflexivity.
  - intros ns name H. split; [by apply local_name_braced|by apply local_name_plain].
  - apply find_loc_refines.
  - intros t. apply strip_by_trimmed.
  - intros t. apply strip_by_nil.
  - apply on_child_no_loc.
Qed.

(** ** The fetcher *)

Lemma selected_for_gunzip_test (url : string) (response : Response) :
  Py.endswith url ".gz"
  || bool_decide (content_type response = Some "application/x-gzip") = true
  ↔ selected_for_gunzip url response.
Proof.
  unfold selected_for_gunzip.
  by rewrite orb_true_iff, endswith_spec, bool_decide_eq_true.
Qed.

Lemma fetch_and_parse_cases (w : World) (url : string) (o : option Element) :
  fetch_and_parse w url = o ↔
  (requests_get w url = None ∧ o = None)
  ∨ ∃ response,
      requests_get w url = Some response
      ∧ ((status_code response ≠ 200%Z ∧ o = None)
         ∨ (status_code response = 200%Z
            ∧ ((selected_for_gunzip url response
                ∧ gzip_read w (content response) = None ∧ o = None)
               ∨ ∃ body, decoded w url response body
                         ∧ ET_fromstring w body = o))).
Proof.
  unfold fetch_and_parse, decoded.
  destruct (requests_get w url) as [response|]; [|naive_solver].
  destruct (Z.eqb_spec (status_code response) 200) as [Hs|Hs]; simpl;
    [|naive_solver].
  pose proof (selected_for_gunzip_test url response) as Hsel.
  destruct (Py.endswith url ".gz" || bool_decide _).
  - assert (selected_for_gunzip url response) as Hy by by apply Hsel.
    destruct (gzip_read w (content response)) as [body|] eqn:Hz;
      naive_solver.
  - assert (¬ selected_for_gunzip url response) as Hn.
    { intros H. apply Hsel in H. done. }
    naive_solver.
Qed.

Lemma fetch_and_parse_none (w : World) (url : string) :
  fetch_and_parse w url = None ↔ fetch_failure w url.
Proof.
  rewrite fetch_and_parse_cases. split.
  - intros [[H _]|[r [Hr [[Hs _]|[Hs [[Hy [Hz _]]|[body [Hd Hp]]]]]]]].
    + by apply NetworkFailure.
    + by eapply StatusFailure.
    + by eapply DecodeFailure.
    + by eapply ParseFailure.
  - intros [H|r Hr Hs|r Hr Hs Hy Hz|r body Hr Hs Hd Hp]; [by left|right..];
      exists r; split; try done.
    + by left.
    + right. split; [done|]. left. done.
    + right. split; [done|]. right. by exists body.
Qed.

Lemma fetch_and_parse_some (w : World) (url : string) (root : Element) :
  fetch_and_parse w url = Some root ↔
  ∃ response body,
    requests_get w url = Some response ∧ status_code response = 200%Z
    ∧ decoded w url response body ∧ ET_fromstring w body = Some root.
Proof.
  rewrite fetch_and_parse_cases. split.
  - intros [[_ ?]|[r [Hr [[_ ?]|[Hs [[_ [_ ?]]|[body [Hd Hp]]]]]]]]; try done.
    by exists r, body.
  - intros [r [body [Hr [Hs [Hd Hp]]]]]. right. exists r. split; [done|].
    right. split; [done|]. right. by exists body.
Qed.

Lemma iteration_skip (w : World) rule (s : State) (url : string) rest :
  queue s = url :: rest → url ∈ visited_sitemaps s →
  iteration w rule s
  = Ok (mkState rest (visited_sitemaps s) (collected_domains s)
          (processed_count s) (fetched s)).
Proof.
  intros Hq Hv. unfold iteration. rewrite Hq. by rewrite decide_True.
Qed.

Lemma iteration_failed (w : World) rule (s : State) (url : string) rest :
  queue s = url :: rest → url ∉ visited_sitemaps s →
  fetch_and_parse w url = None →
  iteration w rule s = Ok (abandoned url rest s).
Proof.
  intros Hq Hv Hf. unfold iteration. rewrite Hq, decide_False by done.
  by rewrite Hf.
Qed.

Lemma iteration_fetched (w : World) rule (s : State) (url : string) rest root :
  queue s = url :: rest → url ∉ visited_sitemaps s →
  fetch_and_parse w url = Some root →
  iteration w rule s =
  (st <- for_children rule ({[url]} ∪ visited_sitemaps s)
           (rest, collected_domains s) (children root) ;;
   Ok (mkState (fst st) ({[url]} ∪ visited_sitemaps s) (snd st)
         (S (processed_count s)) (fetched s ++ [url]))).
Proof.
  intros Hq Hv Hf. unfold iteration. rewrite Hq, decide_False by done.
  by rewrite Hf.
Qed.

(** C5: [fetch_and_parse] is total (it cannot raise), and it returns [None]
    exactly on a network error, a status other than 200, a failed
    decompression of a payload selected for it, or bytes that do not parse
    as XML; otherwise it returns the parsed document.  On each such failure
    the pass of either crawler abandons the url, which is by then in the
    visited set, keeps the domains and the rest of the queue, and goes on. *)
Theorem fetch_failure_handling (w : World) (url : string) :
  (fetch_and_parse w url = None ↔ fetch_failure w url)
  ∧ (∀ root, fetch_and_parse w url = Some root ↔
       ∃ response body,
         requests_get w url = Some response ∧ status_code response = 200%Z
         ∧ decoded w url response body ∧ ET_fromstring w body = Some root)
  ∧ (∀ s rest,
       queue s = url :: rest → url ∉ visited_sitemaps s →
       fetch_failure w url →
       iteration w (crawler_url w) s = Ok (abandoned url rest s)
       ∧ iteration w (fast_crawler_url w) s = Ok (abandoned url rest s)
       ∧ url ∈ visited_sitemaps (abandoned url rest s)
       ∧ collected_domains (abandoned url rest s) = collected_domains s
       ∧ queue (abandoned url rest s) = rest).
Proof.
  split_and!.
  - apply fetch_and_parse_none.
  - apply fetch_and_parse_some.
  - intros s rest Hq Hv Hf. apply fetch_and_parse_none in Hf.
    split_and!; try by apply iteration_failed.
    + simpl. set_solver.
    + done.
    + done.
Qed.

(** ** The rules for one entry *)

Lemma add_domain_cases (w : World) (loc : string) (D : gset string) :
  (∀ p, Urllib.urlparse w loc = Ok p → Urllib.netloc p ≠ "" →
        add_domain w loc D = {[Urllib.netloc p]} ∪ D)
  ∧ (∀ p, Urllib.urlparse w loc = Ok p → Urllib.netloc p = "" →
          add_domain w loc D = D)
  ∧ (∀ e, Urllib.urlparse w loc = Raise e → add_domain w loc D = D).
Proof.
  unfold add_domain. split_and!.
  - intros p -> Hn. apply truthy_true in Hn. by rewrite Hn.
  - intros p -> Hn. by rewrite Hn.
  - by intros e ->.
Qed.

Lemma add_domain_grows (w : World) (loc : string) (D : gset string) :
  D ⊆ add_domain w loc D.
Proof.
  unfold add_domain. destruct (Urllib.urlparse w loc) as [p|]; [|done].
  destruct (Py.truthy (Urllib.netloc p)); set_solver.
Qed.

Lemma on_child_url rule (visited : gset string) (st : Found)
    (child : Element) (loc : string) :
  local_name (tag child) = "url" → find_loc child = Some loc →
  on_child rule visited st child = rule visited loc st.
Proof. intros Ht Hl. unfold on_child. by rewrite Hl, Ht. Qed.

Lemma on_child_sitemap rule (visited : gset string) (st : Found)
    (child : Element) (loc : string) :
  local_name (tag child) = "sitemap" → find_loc child = Some loc →
  on_child rule visited st child
  = Ok (append_unvisited visited loc (fst st), snd st).
Proof. intros Ht Hl. unfold on_child. by rewrite Hl, Ht. Qed.

Lemma on_child_other rule (visited : gset string) (st : Found)
    (child : Element) :
  local_name (tag child) ≠ "sitemap" → local_name (tag child) ≠ "url" →
  on_child rule visited st child = Ok st.
Proof.
  intros H1 H2. unfold on_child. destruct (find_loc child); [|done].
  apply String.eqb_neq in H1, H2. by rewrite H1, H2.
Qed.

(** C2, as stated, fails for the deep policy: a [url] entry whose loc looks
    like a sitemap and is already visited is dropped, its domain is not
    extracted. *)
Lemma crawler_url_visited_sitemap_not_extracted :
  let loc := "https://a.com/sitemap.xml" in
  let child := entry "url" loc in
  on_child (crawler_url offline) {[loc]} ([], ∅) child = Ok ([], ∅)
  ∧ on_child (crawler_url_as_specified offline) {[loc]} ([], ∅) child
    = Ok ([], {["a.com"]})
  ∧ on_child (crawler_url offline) {[loc]} ([], ∅) child
    ≠ on_child (crawler_url_as_specified offline) {[loc]} ([], ∅) child.
Proof.
  assert (on_child (crawler_url offline) {["https://a.com/sitemap.xml"]}
            ([], ∅) (entry "url" "https://a.com/sitemap.xml") = Ok ([], ∅))
    as H1 by (vm_compute; reflexivity).
  assert (on_child (crawler_url_as_specified offline)
            {["https://a.com/sitemap.xml"]} ([], ∅)
            (entry "url" "https://a.com/sitemap.xml") = Ok ([], {["a.com"]}))
    as H2 by (vm_compute; reflexivity).
  simpl. rewrite H1, H2. split_and!; done.
Qed.

(** C2 (amended): for an entry tagged [url] with a resolved loc, the deep
    policy enqueues loc when [is_sitemap_url loc] holds and loc is not
    visited, does nothing when it holds and loc is visited, and adds the
    netloc of loc to the domains (when loc parses and the netloc is not
    empty) when it does not hold; the fast policy adds the netloc when
    [is_homepage loc] returns true and leaves queue and domains as they are
    when it returns false. *)
Theorem url_entry_rules (w : World) (visited : gset string) (st : Found)
    (child : Element) (loc : string) :
  local_name (tag child) = "url" → find_loc child = Some loc →
  (is_sitemap_url loc = true → loc ∉ visited →
     on_child (crawler_url w) visited st child = Ok (fst st ++ [loc], snd st))
  ∧ (is_sitemap_url loc = true → loc ∈ visited →
     on_child (crawler_url w) visited st child = Ok st)
  ∧ (is_sitemap_url loc = false →
     on_child (crawler_url w) visited st child
     = Ok (fst st, add_domain w loc (snd st)))
  ∧ (is_homepage w loc = Ok true →
     on_child (fast_crawler_url w) visited st child
     = Ok (fst st, add_domain w loc (snd st)))
  ∧ (is_homepage w loc = Ok false →
     on_child (fast_crawler_url w) visited st child = Ok st)
  ∧ (∀ p, Urllib.urlparse w loc = Ok p → Urllib.netloc p ≠ "" →
        add_domain w loc (snd st) = {[Urllib.netloc p]} ∪ snd st)
  ∧ (∀ p, Urllib.urlparse w loc = Ok p → Urllib.netloc p = "" →
        add_domain w loc (snd st) = snd st)
  ∧ (∀ e, Urllib.urlparse w loc = Raise e → add_domain w loc (snd st) = snd st).
Proof.
  intros Ht Hl. destruct st as [q D]. simpl.
  rewrite !(on_child_url _ visited (q, D) child loc Ht Hl).
  unfold crawler_url, fast_crawler_url, append_unvisited. simpl.
  split_and!; try apply add_domain_cases.
  - intros -> Hv. by rewrite decide_False.
  - intros -> Hv. by rewrite decide_True.
  - by intros ->.
  - by intros ->.
  - by intros ->.
Qed.

Lemma url_entry_rules_witness :
  on_child (fast_crawler_url offline) ∅ ([], ∅) (entry "url" "https://a.com/")
  = Ok ([], add_domain offline "https://a.com/" ∅).
Proof.
  apply (url_entry_rules offline ∅ ([], ∅) (entry "url" "https://a.com/")
           "https://a.com/"); reflexivity.
Defined.

(** ** The traversal engine: what a run preserves *)

Lemma crawler_url_sound (w : World) : rule_sound (crawler_url w).
Proof.
  intros visited loc [q D] st'. unfold crawler_url, append_unvisited. simpl.
  destruct (is_sitemap_url loc).
  - destruct (decide (loc ∈ visited)); intros [= <-]; simpl; eauto.
  - intros [= <-]. simpl. split; [by left|apply add_domain_grows].
Qed.

Lemma crawler_url_returns (w : World) visited loc st :
  ∃ st', crawler_url w visited loc st = Ok st'.
Proof. unfold crawler_url. destruct (is_sitemap_url loc); eauto. Qed.

Lemma fast_crawler_url_sound (w : World) : rule_sound (fast_crawler_url w).
Proof.
  intros visited loc [q D] st'. unfold fast_crawler_url. simpl.
  destruct (is_homepage w loc) as [[]|]; simpl; [| |done]; intros [= <-].
  - simpl. split; [by left|apply add_domain_grows].
  - simpl. by split; [left|].
Qed.

Lemma script_rule_sound (w : World) rule : script_rule w rule → rule_sound rule.
Proof.
  intros [->| ->]; [apply crawler_url_sound|apply fast_crawler_url_sound].
Qed.

Section Run.
Context (w : World) (rule : gset string → string → Found → result Found).
Context (Hrule : rule_sound rule).

Lemma on_child_sound (visited : gset string) (st st' : Found) (child : Element) :
  on_child rule visited st child = Ok st' →
  (∃ added, fst st' = fst st ++ added ∧ length added ≤ 1
            ∧ ∀ u, u ∈ added → u ∉ visited)
  ∧ snd st ⊆ snd st'.
Proof.
  unfold on_child. destruct (find_loc child) as [loc|].
  - destruct (String.eqb _ "sitemap").
    + intros [= <-]. simpl. split; [|done]. unfold append_unvisited.
      destruct (decide (loc ∈ visited)).
      * exists []. rewrite app_nil_r. split_and!; [done|simpl; lia|set_solver].
      * exists [loc]. split_and!; [done|simpl; lia|set_solver].
    + destruct (String.eqb _ "url").
      * intros H. apply Hrule in H as [[H|[H Hv]] HD]; (split; [|done]).
        -- exists []. rewrite app_nil_r. split_and!; [done|simpl; lia|set_solver].
        -- exists [loc]. split_and!; [done|simpl; lia|set_solver].
      * intros [= <-]. split; [|done]. exists []. rewrite app_nil_r.
        split_and!; [done|simpl; lia|set_solver].
  - intros [= <-]. split; [|done]. exists []. rewrite app_nil_r.
    split_and!; [done|simpl; lia|set_solver].
Qed.

Lemma for_children_sound (visited : gset string) (l : list Element) :
  ∀ st st', for_children rule visited st l = Ok st' →
    (∃ added, fst st' = fst st ++ added ∧ length added ≤ length l
              ∧ ∀ u, u ∈ added → u ∉ visited)
    ∧ snd st ⊆ snd st'.
Proof.
  induction l as [|child l IH]; intros st st'; simpl.
  - intros [= <-]. split; [|done]. exists []. rewrite app_nil_r.
    split_and!; [done|simpl; lia|set_solver].
  - destruct (on_child rule visited st child) as [st1|] eqn:H1; [|done].
    simpl. intros H2.
    apply on_child_sound in H1 as [[a1 [E1 [L1 V1]]] D1].
    apply IH in H2 as [[a2 [E2 [L2 V2]]] D2].
    split; [|set_solver]. exists (a1 ++ a2).
    rewrite E2, E1, <- app_assoc. split_and!; [done|rewrite length_app; lia|].
    intros u [?|?]%elem_of_app; eauto.
Qed.

Lemma iteration_pass (s s' : State) :
  queue s ≠ [] → iteration w rule s = Ok s' → pass w s s'.
Proof.
  intros Hq. destruct (queue s) as [|url rest] eqn:Eq; [done|].
  destruct (decide (url ∈ visited_sitemaps s)) as [Hv|Hv].
  - rewrite (iteration_skip w rule s url rest Eq Hv). intros [= <-].
    by eapply pass_skip.
  - destruct (fetch_and_parse w url) as [root|] eqn:Hf.
    + rewrite (iteration_fetched w rule s url rest root Eq Hv Hf).
      destruct (for_children _ _ _ _) as [st|] eqn:Hc; [|done].
      simpl. intros [= <-].
      apply for_children_sound in Hc as [[added [E [L V]]] D]. simpl in *.
      rewrite E. by eapply pass_fetched.
    + rewrite (iteration_failed w rule s url rest Eq Hv Hf). intros [= <-].
      by eapply pass_failed.
Qed.

Lemma iteration_idle (s : State) : queue s = [] → iteration w rule s = Ok s.
Proof. intros Hq. unfold iteration. by rewrite Hq. Qed.

Lemma later_refl (s : State) : later s s.
Proof. by split. Qed.

Lemma later_trans (s1 s2 s3 : State) : later s1 s2 → later s2 s3 → later s1 s3.
Proof.
  intros [] []. split; try set_solver. by etrans.
Qed.

Lemma pass_later (s s' : State) : pass w s s' → later s s'.
Proof.
  intros [url rest Hq Hv|url rest Hq Hv Hf|url rest root added D Hq Hv Hf L V HD];
    split; simpl; try done; try set_solver;
    try (by apply prefix_app_r); unfold encountered; rewrite Hq; simpl.
  - set_solver.
  - set_solver.
  - rewrite list_to_set_app_L. set_solver.
Qed.

Lemma pass_consistent (s s' : State) :
  consistent s → pass w s s' → consistent s'.
Proof.
  intros [Hn Hfv]
    [url rest Hq Hv|url rest Hq Hv Hf|url rest root added D Hq Hv Hf L V HD];
    split; simpl; try done.
  - apply NoDup_app. split_and!; [done| |apply NoDup_singleton].
    intros u Hu ->%list_elem_of_singleton. by apply Hv, Hfv.
  - intros u. rewrite elem_of_app, list_elem_of_singleton, Hfv. set_solver.
  - apply NoDup_app. split_and!; [done| |apply NoDup_singleton].
    intros u Hu ->%list_elem_of_singleton. by apply Hv, Hfv.
  - intros u. rewrite elem_of_app, list_elem_of_singleton, Hfv. set_solver.
Qed.

Lemma iteration_later (s s' : State) : iteration w rule s = Ok s' → later s s'.
Proof.
  intros H. destruct (queue s) eqn:Hq.
  - rewrite iteration_idle in H by done. injection H as <-. apply later_refl.
  - apply pass_later, iteration_pass; [by rewrite Hq|done].
Qed.

Lemma iteration_consistent (s s' : State) :
  consistent s → iteration w rule s = Ok s' → consistent s'.
Proof.
  intros Hc H. destruct (queue s) eqn:Hq.
  - rewrite iteration_idle in H by done. by injection H as <-.
  - eapply pass_consistent; [done|]. apply iteration_pass; [by rewrite Hq|done].
Qed.

Lemma iterations_later (n : nat) : ∀ s s',
  iterations w rule n s = Ok s' → later s s'.
Proof.
  induction n as [|n IH]; intros s s'; simpl.
  - intros [= <-]. apply later_refl.
  - destruct (iteration w rule s) as [s1|] eqn:H1; [|done]. simpl. intros H2.
    eapply later_trans; [by apply iteration_later|by apply IH].
Qed.

Lemma iterations_consistent (n : nat) : ∀ s s',
  consistent s → iterations w rule n s = Ok s' → consistent s'.
Proof.
  induction n as [|n IH]; intros s s' Hc; simpl.
  - by intros [= <-].
  - destruct (iteration w rule s) as [s1|] eqn:H1; [|done]. simpl.
    apply IH. by eapply iteration_consistent.
Qed.

End Run.

Lemma initial_consistent (seeds : list string) : consistent (initial_state seeds).
Proof. split; simpl; [apply NoDup_nil_2|set_solver]. Qed.

Lemma pass_fetches_once w (s s' : State) (url : string) rest :
  queue s = url :: rest → url ∉ visited_sitemaps s → pass w s s' →
  fetched s' = fetched s ++ [url] ∧ url ∈ visited_sitemaps s'
  ∧ ∀ u, u ∈ queue s' → u ∈ rest ∨ u ∉ {[url]} ∪ visited_sitemaps s.
Proof.
  intros Hq Hv
    [url' rest' Hq' Hv'|url' rest' Hq' Hv' Hf|url' rest' root added D Hq' Hv' Hf L V HD];
    rewrite Hq in Hq'; injection Hq' as <- <-; simpl.
  - done.
  - split_and!; [done|set_solver|auto].
  - split_and!; [done|set_solver|].
    intros u [?|?]%elem_of_app; auto.
Qed.

Lemma cyclic_run :
  iterations (serving cyclic_docs) (crawler_url (serving cyclic_docs)) 2
    (initial_state ["https://a.com/A.xml"]) = Ok cyclic_final
  ∧ crawler (serving cyclic_docs) 2 ["https://a.com/A.xml"] = Some (Ok []).
Proof. split; vm_compute; reflexivity. Qed.

(** C3: in every run of either crawler, over any world (cyclic references
    included), the visited set, the domain set and the log of fetches only
    grow; no url is fetched twice and the fetched urls are exactly the
    visited ones; a dequeued url that is already visited is dropped without
    a fetch; a url that is fetched is in the visited set by then, so that
    the document fetched cannot put it back in the queue. *)
Theorem run_invariants (w : World)
    (rule : gset string → string → Found → result Found)
    (seeds : list string) (n : nat) (s : State) :
  script_rule w rule →
  iterations w rule n (initial_state seeds) = Ok s →
  consistent s
  ∧ later (initial_state seeds) s
  ∧ (∀ m s', iterations w rule m s = Ok s' → later s s' ∧ consistent s')
  ∧ (∀ url rest, queue s = url :: rest → url ∈ visited_sitemaps s →
       iteration w rule s
       = Ok (mkState rest (visited_sitemaps s) (collected_domains s)
               (processed_count s) (fetched s)))
  ∧ (∀ url rest s', queue s = url :: rest → url ∉ visited_sitemaps s →
       iteration w rule s = Ok s' →
       fetched s' = fetched s ++ [url] ∧ url ∈ visited_sitemaps s'
       ∧ ∀ u, u ∈ queue s' → u ∈ rest ∨ u ∉ {[url]} ∪ visited_sitemaps s).
Proof.
  intros Hr Hn. apply script_rule_sound in Hr.
  assert (consistent s) as Hc.
  { apply (iterations_consistent w rule Hr n (initial_state seeds));
      [apply initial_consistent|done]. }
  split_and!.
  - done.
  - by apply (iterations_later w rule Hr n).
  - intros m s' Hm. split; [by apply (iterations_later w rule Hr m)|].
    by apply (iterations_consistent w rule Hr m s).
  - intros url rest Hq Hv. by apply (iteration_skip w rule s url rest).
  - intros url rest s' Hq Hv Hi.
    apply (pass_fetches_once w s s' url rest Hq Hv).
    apply (iteration_pass w rule Hr); [by rewrite Hq|done].
Qed.

Lemma run_invariants_witness : consistent cyclic_final.
Proof.
  apply (run_invariants (serving cyclic_docs) (crawler_url (serving cyclic_docs))
           ["https://a.com/A.xml"] 2 cyclic_final).
  - by left.
  - vm_compute. reflexivity.
Defined.

(** ** The traversal engine: termination *)

Lemma pending_mono (w : World) (sites : list string) (V V' : gset string) :
  V ⊆ V' → pending w sites V' ≤ pending w sites V.
Proof.
  intros HV. induction sites as [|u rest IH]; simpl; [lia|].
  destruct (decide (u ∈ V')), (decide (u ∈ V)); try lia. set_solver.
Qed.

Lemma pending_visit (w : World) (sites : list string) (V : gset string) u :
  u ∈ sites → u ∉ V →
  pending w sites ({[u]} ∪ V) + entries w u ≤ pending w sites V.
Proof.
  intros Hin Hv. induction sites as [|x rest IH]; [by apply not_elem_of_nil in Hin|].
  simpl. apply elem_of_cons in Hin as [<-|Hin].
  - rewrite decide_True by set_solver. rewrite decide_False by done.
    assert (V ⊆ {[u]} ∪ V) as Hsub by set_solver.
    pose proof (pending_mono w rest V ({[u]} ∪ V) Hsub). lia.
  - specialize (IH Hin).
    destruct (decide (x ∈ {[u]} ∪ V)), (decide (x ∈ V)); try lia. set_solver.
Qed.

Lemma pass_measure (w : World) (sites : list string) (s s' : State) :
  finite_graph w sites → pass w s s' →
  S (measure w sites s') ≤ measure w sites s.
Proof.
  intros Hfin
    [url rest Hq Hv|url rest Hq Hv Hf|url rest root added D Hq Hv Hf L V HD];
    unfold measure; rewrite Hq; simpl.
  - lia.
  - assert (visited_sitemaps s ⊆ {[url]} ∪ visited_sitemaps s) as Hsub
      by set_solver.
    pose proof (pending_mono w sites (visited_sitemaps s)
                  ({[url]} ∪ visited_sitemaps s) Hsub). lia.
  - assert (url ∈ sites) as Hin by (apply Hfin; by rewrite Hf).
    pose proof (pending_visit w sites (visited_sitemaps s) url Hin Hv) as Hp.
    unfold entries in Hp. rewrite Hf in Hp. rewrite length_app. lia.
Qed.

Lemma iterations_idle (w : World) rule (n : nat) (s : State) :
  queue s = [] → iterations w rule n s = Ok s.
Proof.
  intros Hq. induction n as [|n IH]; [done|]. simpl.
  by rewrite (iteration_idle w rule s Hq).
Qed.

Lemma iterations_add (w : World) rule (n m : nat) : ∀ s,
  iterations w rule (n + m) s
  = (s' <- iterations w rule n s ;; iterations w rule m s').
Proof.
  induction n as [|n IH]; intros s; [done|]. simpl.
  destruct (iteration w rule s); [apply IH|done].
Qed.

Lemma while_queue_iterations (w : World) rule (fuel : nat) : ∀ s s',
  while_queue w rule fuel s = Some (Ok s') →
  iterations w rule fuel s = Ok s' ∧ queue s' = [].
Proof.
  induction fuel as [|fuel IH]; intros s s'; simpl.
  - destruct (queue s) eqn:Hq; [|done]. by intros [= <-].
  - destruct (queue s) eqn:Hq.
    + intros [= <-]. rewrite (iteration_idle w rule s Hq). simpl.
      by rewrite iterations_idle.
    + destruct (iteration w rule s) as [s1|]; [|done]. simpl. apply IH.
Qed.

Lemma while_queue_more_fuel (w : World) rule (fuel : nat) : ∀ s r fuel',
  while_queue w rule fuel s = Some r → fuel ≤ fuel' →
  while_queue w rule fuel' s = Some r.
Proof.
  induction fuel as [|fuel IH]; intros s r fuel'; simpl.
  - destruct (queue s) eqn:Hq; [|done]. intros [= <-] _.
    destruct fuel'; simpl; by rewrite Hq.
  - destruct (queue s) eqn:Hq.
    + intros [= <-] _. destruct fuel'; simpl; by rewrite Hq.
    + intros H Hle. destruct fuel' as [|fuel']; [lia|]. simpl. rewrite Hq.
      destruct (iteration w rule s) as [s1|]; [|done].
      apply IH; [done|lia].
Qed.

Section Termination.
Context (w : World) (rule : gset string → string → Found → result Found).
Context (sites : list string).
Context (Hrule : rule_sound rule) (Hfin : finite_graph w sites).

Lemma while_queue_terminates (fuel : nat) : ∀ s,
  measure w sites s ≤ fuel → ∃ r, while_queue w rule fuel s = Some r.
Proof.
  induction fuel as [|fuel IH]; intros s Hm; simpl.
  - destruct (queue s) eqn:Hq; [eauto|]. unfold measure in Hm.
    rewrite Hq in Hm. simpl in Hm. lia.
  - destruct (queue s) eqn:Hq; [eauto|].
    destruct (iteration w rule s) as [s1|e] eqn:Hi; [|eauto].
    apply IH. apply (iteration_pass w rule Hrule) in Hi; [|by rewrite Hq].
    apply (pass_measure w sites) in Hi; [lia|done].
Qed.

Lemma iteration_returns (s : State) :
  returns_on_graph w rule → ∃ s', iteration w rule s = Ok s'.
Proof.
  intros Hret. unfold iteration. destruct (queue s) as [|url rest]; [eauto|].
  destruct (decide _); [eauto|].
  destruct (fetch_and_parse w url) as [root|] eqn:Hf; [|eauto].
  destruct (Hret url root ({[url]} ∪ visited_sitemaps s)
              (rest, collected_domains s) Hf) as [st' ->].
  simpl. eauto.
Qed.

Lemma while_queue_returns (fuel : nat) : ∀ s,
  returns_on_graph w rule → measure w sites s ≤ fuel →
  ∃ s', while_queue w rule fuel s = Some (Ok s').
Proof.
  intros s Hret. revert s.
  induction fuel as [|fuel IH]; intros s Hm; simpl.
  - destruct (queue s) eqn:Hq; [eauto|]. unfold measure in Hm.
    rewrite Hq in Hm. simpl in Hm. lia.
  - destruct (queue s) eqn:Hq; [eauto|].
    destruct (iteration_returns s Hret) as [s1 Hi]. rewrite Hi.
    apply IH. apply (iteration_pass w rule Hrule) in Hi; [|by rewrite Hq].
    apply (pass_measure w sites) in Hi; [lia|done].
Qed.

End Termination.

(** What holds when the queue has emptied. *)
Lemma finished_run (w : World) rule (seeds : list string) (fuel : nat)
    (s : State) :
  rule_sound rule →
  while_queue w rule fuel (initial_state seeds) = Some (Ok s) →
  queue s = []
  ∧ NoDup (fetched s)
  ∧ length (fetched s) = size (visited_sitemaps s)
  ∧ (∀ u, u ∈ seeds → u ∈ visited_sitemaps s)
  ∧ (∀ n sn, iterations w rule n (initial_state seeds) = Ok sn →
       encountered sn ⊆ visited_sitemaps s).
Proof.
  intros Hrule Hw. apply while_queue_iterations in Hw as [Hi Hq].
  pose proof (iterations_consistent w rule Hrule fuel _ _
                (initial_consistent seeds) Hi) as [Hn Hfv].
  assert (encountered s = visited_sitemaps s) as He.
  { unfold encountered. rewrite Hq. simpl. set_solver. }
  split_and!; [done|done| | |].
  - rewrite <- (size_list_to_set (C:=gset string)) by done. f_equal.
    apply set_eq. intros u. rewrite elem_of_list_to_set. apply Hfv.
  - intros u Hu. rewrite <- He.
    apply (encountered_grows _ _ (iterations_later w rule Hrule fuel _ _ Hi)).
    unfold encountered. simpl. set_solver.
  - intros n sn Hsn. rewrite <- He.
    destruct (decide (n ≤ fuel)) as [Hle|Hgt].
    + replace fuel with (n + (fuel - n)) in Hi by lia.
      rewrite iterations_add, Hsn in Hi. simpl in Hi.
      apply (encountered_grows _ _ (iterations_later w rule Hrule _ _ _ Hi)).
    + replace n with (fuel + (n - fuel)) in Hsn by lia.
      rewrite iterations_add, Hi in Hsn. simpl in Hsn.
      rewrite iterations_idle in Hsn by done. by injection Hsn as <-.
Qed.

Lemma on_child_crawler_returns (w : World) visited st child :
  ∃ st', on_child (crawler_url w) visited st child = Ok st'.
Proof.
  unfold on_child. destruct (find_loc child); [|eauto].
  destruct (String.eqb _ "sitemap"); [eauto|].
  destruct (String.eqb _ "url"); [apply crawler_url_returns|eauto].
Qed.

Lemma crawler_returns_on_graph (w : World) : returns_on_graph w (crawler_url w).
Proof.
  intros u root visited st _. revert st.
  induction (children root) as [|child l IH]; intros st; simpl; [eauto|].
  destruct (on_child_crawler_returns w visited st child) as [st1 ->]. simpl.
  apply IH.
Qed.

Lemma for_children_fast_returns (w : World) visited (l : list Element) : ∀ st,
  (∀ child loc, child ∈ l → local_name (tag child) = "url" →
     find_loc child = Some loc → ∃ b, is_homepage w loc = Ok b) →
  ∃ st', for_children (fast_crawler_url w) visited st l = Ok st'.
Proof.
  induction l as [|child l IH]; intros st H; simpl; [eauto|].
  assert (∃ st1, on_child (fast_crawler_url w) visited st child = Ok st1)
    as [st1 ->].
  { unfold on_child. destruct (find_loc child) as [loc|] eqn:Hl; [|eauto].
    destruct (String.eqb _ "sitemap"); [eauto|].
    destruct (String.eqb_spec (local_name (tag child)) "url") as [Ht|]; [|eauto].
    destruct (H child loc) as [b Hb]; [set_solver|done|done|].
    unfold fast_crawler_url. rewrite Hb. simpl. destruct b; eauto. }
  simpl. apply IH. intros c loc Hc. apply H. set_solver.
Qed.

Lemma fast_returns_on_graph (w : World) :
  homepage_check_returns w → returns_on_graph w (fast_crawler_url w).
Proof.
  intros H u root visited st Hf. apply for_children_fast_returns.
  intros child loc Hc. by apply (H u root).
Qed.

Lemma initial_measure (w : World) (sites seeds : list string) :
  measure w sites (initial_state seeds) = budget w sites seeds.
Proof. done. Qed.

Lemma traversal_of_loop (w : World) rule (fuel : nat) (seeds : list string)
    (s : State) :
  while_queue w rule fuel (initial_state seeds) = Some (Ok s) →
  traversal w rule fuel seeds
  = Some (Ok (Py.sorted (elements (collected_domains s)))).
Proof. intros H. unfold traversal. by rewrite H. Qed.

Lemma serving_finite (docs : list (string * Element)) :
  finite_graph (serving docs) (map fst docs).
Proof.
  intros u Hf. unfold fetch_and_parse in Hf. simpl in Hf.
  destruct (List.find _ docs) as [d|] eqn:Hd; [|done].
  apply find_some in Hd as [Hin He]. apply String.eqb_eq in He. subst u.
  apply list_elem_of_In, in_map, Hin.
Qed.

(** X1: on a finite sitemap graph the deep crawler returns: the loop empties
    the queue within [len(seeds)] plus the number of entries of the
    documents that can be fetched, more passes change nothing, each url is
    fetched exactly once and every seed ends up visited. *)
Theorem crawler_terminates (w : World) (sites seeds : list string) :
  finite_graph w sites →
  ∃ s,
    while_queue w (crawler_url w) (budget w sites seeds) (initial_state seeds)
    = Some (Ok s)
    ∧ queue s = []
    ∧ NoDup (fetched s)
    ∧ length (fetched s) = size (visited_sitemaps s)
    ∧ (∀ u, u ∈ seeds → u ∈ visited_sitemaps s)
    ∧ ∀ fuel, budget w sites seeds ≤ fuel →
        crawler w fuel seeds
        = Some (Ok (Py.sorted (elements (collected_domains s)))).
Proof.
  intros Hfin.
  destruct (while_queue_returns w (crawler_url w) sites (crawler_url_sound w)
              Hfin (budget w sites seeds) (initial_state seeds)
              (crawler_returns_on_graph w)) as [s Hs].
  { by rewrite initial_measure. }
  exists s.
  destruct (finished_run w (crawler_url w) seeds _ s (crawler_url_sound w) Hs)
    as (Hq & Hn & Hl & Hseeds & _).
  split_and!; try done.
  intros fuel Hle. apply traversal_of_loop.
  by apply (while_queue_more_fuel w _ (budget w sites seeds)).
Qed.

Lemma crawler_terminates_witness :
  ∃ s,
    while_queue (serving diamond_docs) (crawler_url (serving diamond_docs))
      (budget (serving diamond_docs) (map fst diamond_docs)
         ["https://a.com/A.xml"])
      (initial_state ["https://a.com/A.xml"]) = Some (Ok s)
    ∧ queue s = []
    ∧ NoDup (fetched s)
    ∧ length (fetched s) = size (visited_sitemaps s)
    ∧ (∀ u, u ∈ ["https://a.com/A.xml"] → u ∈ visited_sitemaps s)
    ∧ ∀ fuel,
        budget (serving diamond_docs) (map fst diamond_docs)
          ["https://a.com/A.xml"] ≤ fuel →
        crawler (serving diamond_docs) fuel ["https://a.com/A.xml"]
        = Some (Ok (Py.sorted (elements (collected_domains s)))).
Proof.
  apply (crawler_terminates (serving diamond_docs) (map fst diamond_docs)
           ["https://a.com/A.xml"]).
  apply serving_finite.
Defined.

(** X2: on a finite sitemap graph the fast crawler ends within the same
    number of passes, by returning or by raising; it returns, with each url
    fetched exactly once, when [is_homepage] returns on the loc of every
    [url] entry of the graph. *)
Theorem fast_crawler_terminates (w : World) (sites seeds : list string) :
  finite_graph w sites →
  (∃ r, ∀ fuel, budget w sites seeds ≤ fuel →
          fast_crawler w fuel seeds = Some r)
  ∧ (homepage_check_returns w →
     ∃ s,
       while_queue w (fast_crawler_url w) (budget w sites seeds)
         (initial_state seeds) = Some (Ok s)
       ∧ queue s = []
       ∧ NoDup (fetched s)
       ∧ length (fetched s) = size (visited_sitemaps s)
       ∧ (∀ u, u ∈ seeds → u ∈ visited_sitemaps s)
       ∧ ∀ fuel, budget w sites seeds ≤ fuel →
           fast_crawler w fuel seeds
           = Some (Ok (Py.sorted (elements (collected_domains s))))).
Proof.
  intros Hfin. split.
  - destruct (while_queue_terminates w (fast_crawler_url w) sites
                (fast_crawler_url_sound w) Hfin (budget w sites seeds)
                (initial_state seeds)) as [r Hr].
    { by rewrite initial_measure. }
    exists (match r with
            | Ok s => Ok (Py.sorted (elements (collected_domains s)))
            | Raise e => Raise e
            end).
    intros fuel Hle. unfold fast_crawler, traversal.
    rewrite (while_queue_more_fuel w _ _ _ r fuel Hr Hle). by destruct r.
  - intros Hhome.
    destruct (while_queue_returns w (fast_crawler_url w) sites
                (fast_crawler_url_sound w) Hfin (budget w sites seeds)
                (initial_state seeds) (fast_returns_on_graph w Hhome))
      as [s Hs].
    { by rewrite initial_measure. }
    exists s.
    destruct (finished_run w (fast_crawler_url w) seeds _ s
                (fast_crawler_url_sound w) Hs) as (Hq & Hn & Hl & Hseeds & _).
    split_and!; try done.
    intros fuel Hle. apply traversal_of_loop.
    by apply (while_queue_more_fuel w _ (budget w sites seeds)).
Qed.

Lemma fast_crawler_terminates_witness :
  ∃ r, ∀ fuel,
    budget (serving diamond_docs) (map fst diamond_docs)
      ["https://a.com/A.xml"] ≤ fuel →
    fast_crawler (serving diamond_docs) fuel ["https://a.com/A.xml"] = Some r.
Proof.
  apply (fast_crawler_terminates (serving diamond_docs)
           (map fst diamond_docs) ["https://a.com/A.xml"]).
  apply serving_finite.
Defined.

(** ** Exceptions that leave the crawlers *)

Lemma while_queue_no_raise (w : World) rule (fuel : nat) : ∀ s e,
  returns_on_graph w rule → while_queue w rule fuel s ≠ Some (Raise e).
Proof.
  induction fuel as [|fuel IH]; intros s e Hret; simpl.
  - by destruct (queue s).
  - destruct (queue s); [done|].
    destruct (iteration_returns w rule s Hret) as [s1 ->]. by apply IH.
Qed.

(** X3: the deep crawler never raises, whatever the documents contain: a
    loc that [urlparse] rejects is skipped. *)
Theorem crawler_never_raises (w : World) (fuel : nat) (seeds : list string)
    (e : exn) :
  crawler w fuel seeds ≠ Some (Raise e).
Proof.
  unfold crawler, traversal.
  pose proof (while_queue_no_raise w (crawler_url w) fuel
                (initial_state seeds)) as H.
  destruct (while_queue _ _ _ _) as [[s|e']|]; try done.
  intros [= ->]. by apply (H e (crawler_returns_on_graph w)).
Qed.

Lemma for_children_app (rule : gset string → string → Found → result Found)
    visited (l1 l2 : list Element) : ∀ st,
  for_children rule visited st (l1 ++ l2)
  = (st' <- for_children rule visited st l1 ;;
     for_children rule visited st' l2).
Proof.
  induction l1 as [|c l1 IH]; intros st; [done|]. simpl.
  destruct (on_child rule visited st c); [apply IH|done].
Qed.

(** X4: the fast crawler lets the [ValueError] of [is_homepage] escape: when
    the first document it fetches has a [url] entry whose loc [urlparse]
    rejects, and [is_homepage] returns on the [url] entries before it, the
    whole call raises and no result is returned. *)
Theorem fast_crawler_raises (w : World) (fuel : nat) (seed : string)
    (seeds : list string) (root : Element) (before after : list Element)
    (child : Element) (loc : string) (e : exn) :
  fetch_and_parse w seed = Some root →
  children root = before ++ child :: after →
  (∀ c l, c ∈ before → local_name (tag c) = "url" → find_loc c = Some l →
          ∃ b, is_homepage w l = Ok b) →
  local_name (tag child) = "url" → find_loc child = Some loc →
  Urllib.urlparse w loc = Raise e →
  fast_crawler w (S fuel) (seed :: seeds) = Some (Raise e).
Proof.
  intros Hf Hc Hbefore Ht Hl Hp. unfold fast_crawler, traversal. simpl.
  rewrite (iteration_fetched w (fast_crawler_url w)
             (initial_state (seed :: seeds)) seed seeds root eq_refl
             (not_elem_of_empty seed) Hf).
  rewrite Hc, for_children_app. simpl.
  destruct (for_children_fast_returns w ({[seed]} ∪ ∅) before (seeds, ∅))
    as [st1 ->]; [done|].
  simpl. rewrite (on_child_url _ _ st1 child loc Ht Hl).
  unfold fast_crawler_url, is_homepage. by rewrite Hp.
Qed.

Lemma fast_crawler_raises_witness :
  fast_crawler (serving bad_loc_docs) 1 ["https://a.com/sitemap.xml"]
  = Some (Raise ValueError).
Proof.
  apply (fast_crawler_raises (serving bad_loc_docs) 0
           "https://a.com/sitemap.xml" []
           (Elem "urlset" None [entry "url" "http://["]) [] []
           (entry "url" "http://[") "http://[" ValueError);
    try reflexivity.
  intros c l Hc. by apply not_elem_of_nil in Hc.
Defined.

(** ** The list of domains returned *)

Lemma sorted_spec (l : list string) :
  StronglySorted String.le (Py.sorted l) ∧ Py.sorted l ≡ₚ l.
Proof.
  unfold Py.sorted. split.
  - apply (StronglySorted_merge_sort String.le).
  - apply merge_sort_Permutation.
Qed.

Lemma break_fst_free (p : ascii → bool) (s : string) :
  only_chars (fun c => negb (p c)) (fst (Py.break p s)).
Proof.
  unfold only_chars. induction s as [|c s IH]; [done|]. simpl.
  destruct (p c) eqn:Hc; [done|].
  destruct (Py.break p s) as [x y]. simpl in *. by rewrite Hc.
Qed.

Lemma split_netloc_shape (w : World) (url netloc rest : string) :
  Urllib.split_netloc w url = Ok (netloc, rest) →
  only_chars (fun c => negb (Urllib.netloc_delim c)) netloc.
Proof.
  unfold Urllib.split_netloc, Urllib.splitnetloc.
  destruct (Py.startswith url "//"); [|by intros [= <- <-]].
  pose proof (break_fst_free Urllib.netloc_delim (Py.drop 2 url)) as H.
  destruct (Py.break _ _) as [x y]. simpl in H.
  repeat (match goal with |- context [if ?b then _ else _] => destruct b end);
    try done; by intros [= <- <-].
Qed.

Lemma urlparse_netloc_shape (w : World) (url : string) p :
  Urllib.urlparse w url = Ok p →
  only_chars (fun c => negb (Urllib.netloc_delim c)) (Urllib.netloc p).
Proof.
  unfold Urllib.urlparse, Urllib.urlparse_with, Urllib.urlsplit.
  destruct (Urllib.split_scheme _ _) as [sch u].
  destruct (Urllib.split_netloc w u) as [[nl rest]|] eqn:Hn; [|done].
  apply split_netloc_shape in Hn. simpl.
  repeat (match goal with
          | |- context [match ?x with _ => _ end] => destruct x
          end; simpl);
    by intros [= <-].
Qed.

Lemma add_domain_shape (w : World) (loc : string) (D : gset string) :
  (∀ d, d ∈ D → domain_shape w d) →
  ∀ d, d ∈ add_domain w loc D → domain_shape w d.
Proof.
  intros HD d. unfold add_domain.
  destruct (Urllib.urlparse w loc) as [p|] eqn:Hp; [|apply HD].
  destruct (Py.truthy (Urllib.netloc p)) eqn:Ht; [|apply HD].
  intros [->%elem_of_singleton|Hd]%elem_of_union; [|by apply HD].
  split_and!.
  - by apply truthy_true.
  - by apply (urlparse_netloc_shape w loc).
  - by exists loc, p.
Qed.

Lemma crawler_url_keeps (w : World) :
  rule_keeps (domain_shape w) (crawler_url w).
Proof.
  intros visited loc [q D] st'. unfold crawler_url. simpl.
  destruct (is_sitemap_url loc); intros [= <-]; simpl; [done|].
  apply add_domain_shape.
Qed.

Lemma fast_crawler_url_keeps (w : World) :
  rule_keeps (domain_shape w) (fast_crawler_url w).
Proof.
  intros visited loc [q D] st'. unfold fast_crawler_url. simpl.
  destruct (is_homepage w loc) as [[]|]; simpl; [| |done]; intros [= <-];
    simpl; [|done].
  apply add_domain_shape.
Qed.

Section Keeps.
Context (w : World) (rule : gset string → string → Found → result Found).
Context (P : string → Prop) (Hkeeps : rule_keeps P rule).

Lemma for_children_keeps visited (l : list Element) : ∀ st st',
  for_children rule visited st l = Ok st' →
  (∀ d, d ∈ snd st → P d) → ∀ d, d ∈ snd st' → P d.
Proof.
  induction l as [|child l IH]; intros st st'; simpl; [by intros [= <-]|].
  destruct (on_child rule visited st child) as [st1|] eqn:H1; [|done].
  simpl. intros H2 HP. apply (IH st1 st' H2).
  revert H1. unfold on_child. destruct (find_loc child) as [loc|].
  - destruct (String.eqb _ "sitemap"); [by intros [= <-]|].
    destruct (String.eqb _ "url"); [|by intros [= <-]].
    intros H1. by apply (Hkeeps visited loc st st1 H1).
  - by intros [= <-].
Qed.

Lemma iteration_keeps (s s' : State) :
  iteration w rule s = Ok s' →
  (∀ d, d ∈ collected_domains s → P d) →
  ∀ d, d ∈ collected_domains s' → P d.
Proof.
  unfold iteration. destruct (queue s) as [|url rest]; [by intros [= <-]|].
  destruct (decide _); [by intros [= <-]|].
  destruct (fetch_and_parse w url) as [root|]; [|by intros [= <-]].
  destruct (for_children _ _ _ _) as [st|] eqn:Hc; [|done]. simpl.
  intros [= <-] HP. simpl. by apply (for_children_keeps _ _ _ _ Hc).
Qed.

Lemma while_queue_keeps (fuel : nat) : ∀ s s',
  while_queue w rule fuel s = Some (Ok s') →
  (∀ d, d ∈ collected_domains s → P d) →
  ∀ d, d ∈ collected_domains s' → P d.
Proof.
  induction fuel as [|fuel IH]; intros s s'; simpl.
  - destruct (queue s); [by intros [= <-]|done].
  - destruct (queue s); [by intros [= <-]|].
    destruct (iteration w rule s) as [s1|] eqn:Hi; [|done].
    intros Hw HP. apply (IH s1 s' Hw). by apply (iteration_keeps s s1 Hi).
Qed.

End Keeps.

Lemma traversal_result (w : World) rule (fuel : nat) (seeds res : list string) :
  traversal w rule fuel seeds = Some (Ok res) →
  ∃ s, while_queue w rule fuel (initial_state seeds) = Some (Ok s)
       ∧ res = Py.sorted (elements (collected_domains s)).
Proof.
  unfold traversal. destruct (while_queue _ _ _ _) as [[s|]|]; try done.
  intros [= <-]. by exists s.
Qed.

Lemma traversal_sorted (w : World) rule (fuel : nat) (seeds res : list string) :
  traversal w rule fuel seeds = Some (Ok res) →
  StronglySorted String.le res
  ∧ NoDup res
  ∧ ∃ s, while_queue w rule fuel (initial_state seeds) = Some (Ok s)
         ∧ ∀ d, d ∈ res ↔ d ∈ collected_domains s.
Proof.
  intros Ht. apply traversal_result in Ht as (s & Hs & ->).
  destruct (sorted_spec (elements (collected_domains s))) as [Hsorted Hperm].
  split_and!.
  - done.
  - rewrite Hperm. apply NoDup_elements.
  - exists s. split; [done|].
    intros d. by rewrite Hperm, elem_of_elements.
Qed.

(** X5: the list a crawler returns is in ascending order without repeats,
    and its members are exactly the domains that crawler had collected when
    its own loop emptied the queue; for [crawler] and for [fast_crawler]. *)
Theorem crawler_output_sorted (w : World) (fuel : nat)
    (seeds res : list string) :
  (crawler w fuel seeds = Some (Ok res) →
   StronglySorted String.le res
   ∧ NoDup res
   ∧ ∃ s, while_queue w (crawler_url w) fuel (initial_state seeds)
          = Some (Ok s)
          ∧ ∀ d, d ∈ res ↔ d ∈ collected_domains s)
  ∧ (fast_crawler w fuel seeds = Some (Ok res) →
     StronglySorted String.le res
     ∧ NoDup res
     ∧ ∃ s, while_queue w (fast_crawler_url w) fuel (initial_state seeds)
            = Some (Ok s)
            ∧ ∀ d, d ∈ res ↔ d ∈ collected_domains s).
Proof. split; apply traversal_sorted. Qed.

Lemma crawler_output_sorted_witness :
  StronglySorted String.le ["a.com"; "blog.a.com"]
  ∧ NoDup ["a.com"; "blog.a.com"]
  ∧ ∃ s, while_queue (serving scenario_docs)
           (crawler_url (serving scenario_docs)) 3
           (initial_state ["https://a.com/sitemap_index.xml"]) = Some (Ok s)
         ∧ ∀ d, d ∈ ["a.com"; "blog.a.com"] ↔ d ∈ collected_domains s.
Proof.
  apply (crawler_output_sorted (serving scenario_docs) 3
           ["https://a.com/sitemap_index.xml"] ["a.com"; "blog.a.com"]).
  vm_compute. reflexivity.
Defined.

(** X6: every domain a crawler returns is a non-empty string without ['/'],
    ['?'] or ['#'], and is the netloc of a url that [urlparse] accepts. *)
Theorem crawler_output_domains (w : World) (fuel : nat)
    (seeds res : list string) (d : string) :
  crawler w fuel seeds = Some (Ok res)
  ∨ fast_crawler w fuel seeds = Some (Ok res) →
  d ∈ res → domain_shape w d.
Proof.
  intros H Hd.
  assert (∃ rule, rule_keeps (domain_shape w) rule
                  ∧ traversal w rule fuel seeds = Some (Ok res))
    as (rule & Hr & Ht).
  { destruct H; [exists (crawler_url w)|exists (fast_crawler_url w)];
      (split; [|done]); [apply crawler_url_keeps|apply fast_crawler_url_keeps]. }
  apply traversal_result in Ht as (s & Hs & ->).
  destruct (sorted_spec (elements (collected_domains s))) as [_ Hperm].
  rewrite Hperm, elem_of_elements in Hd.
  apply (while_queue_keeps w rule (domain_shape w) Hr fuel _ s Hs); [|done].
  simpl. set_solver.
Qed.

Lemma crawler_output_domains_witness :
  domain_shape (serving diamond_docs) "a.com".
Proof.
  apply (crawler_output_domains (serving diamond_docs) 4
           ["https://a.com/A.xml"] ["a.com"] "a.com").
  - left. vm_compute. reflexivity.
  - apply list_elem_of_singleton. reflexivity.
Defined.

(** ** The entry resolver *)

Lemma has_char_app (c : ascii) (s t : string) :
  Py.has_char c (s +:+ t) = Py.has_char c s || Py.has_char c t.
Proof.
  induction s as [|a s IH]; [done|]. rewrite str_app_cons. simpl.
  by rewrite IH, orb_assoc.
Qed.

Lemma chr_lower_colon (c : ascii) :
  Ascii.eqb (Py.chr_lower c) ":" = Ascii.eqb c ":".
Proof. by destruct c as [[] [] [] [] [] [] [] []]. Qed.

Lemma has_colon_lower (s : string) :
  Py.has_char ":" (Py.lower s) = Py.has_char ":" s.
Proof.
  induction s as [|a s IH]; [done|]. simpl. by rewrite chr_lower_colon, IH.
Qed.

Lemma has_char_strip_by (p : ascii → bool) (c : ascii) (s : string) :
  Py.has_char c (Py.strip_by p s) = true → Py.has_char c s = true.
Proof.
  unfold Py.strip_by. intros H.
  destruct (lstrip_by_split p s) as [l [Hs _]].
  destruct (rstrip_by_split p (Py.lstrip_by p s)) as [r [Hu _]].
  rewrite Hs, Hu, !has_char_app, H. by rewrite orb_true_r.
Qed.

Lemma cut_found (c : ascii) (s : string) :
  Py.has_char c s = true →
  ∃ x y, Py.cut c s = Some (x, y) ∧ s = x +:+ String c y ∧ free_of c x.
Proof.
  unfold free_of. induction s as [|a s IH]; [done|]. simpl.
  destruct (Ascii.eqb_spec a c) as [->|Hne]; simpl.
  - intros _. by exists "", s.
  - intros H. destruct (IH H) as (x & y & -> & -> & Hx).
    exists (String a x), y. split_and!; [done|done|]. simpl.
    rewrite Hx. by apply Ascii.eqb_neq in Hne as ->.
Qed.

Lemma directive_has_colon (line : string) :
  is_directive line = true → Py.has_char ":" line = true.
Proof.
  unfold is_directive. intros [rest H]%startswith_spec.
  rewrite <- has_colon_lower. apply (has_char_strip_by Py.isspace).
  fold (Py.strip (Py.lower line)). rewrite H, has_char_app. done.
Qed.

Lemma robots_line_spec (sitemaps : list string) (line : string) :
  robots_line sitemaps line
  = Ok (if is_directive line then sitemaps ++ [directive_value line]
        else sitemaps).
Proof.
  unfold robots_line. fold (is_directive line).
  destruct (is_directive line) eqn:Hd; [|done].
  destruct (cut_found ":" line (directive_has_colon line Hd))
    as (x & y & Hc & _).
  unfold Py.split1, directive_value. by rewrite Hc.
Qed.

Lemma robots_lines_spec (lines : list string) : ∀ sitemaps,
  robots_lines sitemaps lines
  = sitemaps ++ map directive_value (List.filter is_directive lines).
Proof.
  induction lines as [|line lines IH]; intros sitemaps; simpl.
  - by rewrite app_nil_r.
  - rewrite robots_line_spec. destruct (is_directive line); simpl.
    + by rewrite IH, <- app_assoc.
    + apply IH.
Qed.

(** X7: [get_sitemap_from_robots] returns, in file order, the stripped text
    after the first colon of every line of robots.txt whose lowercased,
    stripped form starts with "sitemap:" (the [IndexError] of
    [split(':', 1)[1]] cannot occur), and the empty list when the request
    raises or the status is not 200. *)
Theorem get_sitemap_from_robots_spec (w : World)
    (domain_url robots_url : string) :
  Urllib.urljoin w domain_url "/robots.txt" = Ok robots_url →
  (∀ response,
     requests_get w robots_url = Some response →
     status_code response = 200%Z →
     get_sitemap_from_robots w domain_url
     = Ok (map directive_value
             (List.filter is_directive (Py.splitlines (resp_text response)))))
  ∧ (requests_get w robots_url = None →
     get_sitemap_from_robots w domain_url = Ok [])
  ∧ (∀ response,
       requests_get w robots_url = Some response →
       status_code response ≠ 200%Z →
       get_sitemap_from_robots w domain_url = Ok [])
  ∧ (∀ line, is_directive line = true →
       ∃ before after,
         line = before +:+ String ":" after ∧ free_of ":" before
         ∧ directive_value line = Py.strip after
         ∧ trimmed_of Py.isspace (directive_value line) after).
Proof.
  intros Hj. unfold get_sitemap_from_robots. rewrite Hj. simpl. split_and!.
  - intros r -> Hs. rewrite Hs. simpl. by rewrite robots_lines_spec.
  - by intros ->.
  - intros r -> Hs. apply Z.eqb_neq in Hs. by rewrite Hs.
  - intros line Hd.
    destruct (cut_found ":" line (directive_has_colon line Hd))
      as (x & y & Hc & Hl & Hx).
    exists x, y. unfold directive_value. rewrite Hc.
    split_and!; [done|done|done|apply strip_by_trimmed].
Qed.

Lemma get_sitemap_from_robots_spec_witness :
  get_sitemap_from_robots offline "https://a.com" = Ok [].
Proof.
  apply (get_sitemap_from_robots_spec offline "https://a.com"
           "https://a.com/robots.txt" eq_refl).
  reflexivity.
Defined.

Lemma urlparse_robots_path (w : World) (sch : string) :
  ∃ sch', Urllib.urlparse_with w "/robots.txt" sch
          = Ok (Urllib.mkParse sch' "" "/robots.txt" "" "" "").
Proof.
  eexists. unfold Urllib.urlparse_with, Urllib.urlsplit. simpl.
  rewrite andb_false_r. reflexivity.
Qed.

Lemma urlparse_sitemap_path (w : World) (sch : string) :
  ∃ sch', Urllib.urlparse_with w "sitemap.xml" sch
          = Ok (Urllib.mkParse sch' "" "sitemap.xml" "" "" "").
Proof.
  eexists. unfold Urllib.urlparse_with, Urllib.urlsplit. simpl.
  rewrite andb_false_r. reflexivity.
Qed.

Lemma urljoin_raises (w : World) (base url : string) (e : exn) :
  Urllib.urljoin w base url = Raise e →
  Urllib.urlparse w base = Raise e
  ∨ ∃ b, Urllib.urlparse w base = Ok b
         ∧ Urllib.urlparse_with w url (Urllib.scheme b) = Raise e.
Proof.
  unfold Urllib.urljoin, Urllib.urlparse.
  destruct (Py.truthy base); simpl; [|done].
  destruct (Py.truthy url); simpl; [|done].
  destruct (Urllib.urlparse_with w base "") as [b|e1] eqn:Hb; simpl;
    [|intros [= ->]; by left].
  destruct (Urllib.urlparse_with w url (Urllib.scheme b)) as [u|e2] eqn:Hu;
    simpl; [|intros [= ->]; right; by exists b].
  repeat (match goal with |- context [if ?c then _ else _] => destruct c end;
          try done).
Qed.

Lemma urljoin_relative_returns (w : World) (base : string) b :
  Urllib.urlparse w base = Ok b →
  (∃ r, Urllib.urljoin w base "/robots.txt" = Ok r)
  ∧ (∃ f, Urllib.urljoin w base "sitemap.xml" = Ok f).
Proof.
  intros Hb. split.
  - destruct (Urllib.urljoin w base "/robots.txt") as [r|e] eqn:Hj; [eauto|].
    apply urljoin_raises in Hj as [Hj|(b' & _ & Hj)]; [congruence|].
    destruct (urlparse_robots_path w (Urllib.scheme b')) as [? H]. congruence.
  - destruct (Urllib.urljoin w base "sitemap.xml") as [r|e] eqn:Hj; [eauto|].
    apply urljoin_raises in Hj as [Hj|(b' & _ & Hj)]; [congruence|].
    destruct (urlparse_sitemap_path w (Urllib.scheme b')) as [? H]. congruence.
Qed.

Lemma urljoin_base_rejected (w : World) (base url : string) (e : exn) :
  base ≠ "" → url ≠ "" → Urllib.urlparse w base = Raise e →
  Urllib.urljoin w base url = Raise e.
Proof.
  intros Hb Hu Hp. apply truthy_true in Hb, Hu.
  unfold Urllib.urljoin. rewrite Hb, Hu. simpl.
  unfold Urllib.urlparse in Hp. by rewrite Hp.
Qed.

(** X8: seed resolution on a url that is not empty fails exactly when
    [urlparse] rejects the url, with that exception (the [urljoin] calls are
    outside every [try]); otherwise it returns a list that is never empty:
    the directives of robots.txt when there are any, else the single
    fallback [urljoin(url, "sitemap.xml")]. *)
Theorem initial_sitemaps_spec (w : World) (url_input : string) :
  url_input ≠ "" →
  (∀ e, initial_sitemaps w url_input = Raise e
        ↔ Urllib.urlparse w url_input = Raise e)
  ∧ (∀ seeds, initial_sitemaps w url_input = Ok seeds →
       seeds ≠ []
       ∧ (get_sitemap_from_robots w url_input = Ok seeds
          ∨ (get_sitemap_from_robots w url_input = Ok []
             ∧ ∃ fallback,
                 Urllib.urljoin w url_input "sitemap.xml" = Ok fallback
                 ∧ seeds = [fallback]))).
Proof.
  intros Hne. unfold initial_sitemaps.
  destruct (Urllib.urlparse w url_input) as [b|e0] eqn:Hp.
  - destruct (urljoin_relative_returns w url_input b Hp) as [[r Hr] [f Hf]].
    unfold get_sitemap_from_robots at 1 2. rewrite Hr. simpl.
    set (found := match requests_get w r with
                  | Some response => _ | None => _ end).
    assert (get_sitemap_from_robots w url_input = Ok found) as Hg.
    { unfold get_sitemap_from_robots. by rewrite Hr. }
    rewrite Hg. destruct found as [|x l] eqn:Hfound.
    + rewrite Hf. simpl. split; [by split|].
      intros seeds [= <-]. split; [done|]. right. split; [done|]. by exists f.
    + split; [by split|]. intros seeds [= <-]. split; [done|]. by left.
  - assert (Urllib.urljoin w url_input "/robots.txt" = Raise e0) as Hr
      by by apply urljoin_base_rejected.
    unfold get_sitemap_from_robots. rewrite Hr. simpl. split; [|done].
    intros e. split; congruence.
Qed.

Lemma initial_sitemaps_spec_witness :
  initial_sitemaps offline "http://[" = Raise ValueError.
Proof.
  apply (initial_sitemaps_spec offline "http://["); [discriminate|].
  vm_compute. reflexivity.
Defined.

Lemma urlparse_base_truthy (w : World) (base : string) b :
  Urllib.urlparse w base = Ok b → Urllib.netloc b ≠ "" →
  Py.truthy base = true.
Proof.
  intros Hb Hn. apply truthy_true. intros ->.
  vm_compute in Hb. injection Hb as <-. by apply Hn.
Qed.

Lemma urlunparse_site (sch nl p : string) :
  nl ≠ "" → Py.startswith p "/" = true →
  Urllib.urlunparse sch nl p "" "" "" =
  (if Py.truthy sch then sch +:+ ":" +:+ "//" +:+ nl +:+ p
   else "//" +:+ nl +:+ p).
Proof.
  intros Hn Hp. apply truthy_true in Hn.
  unfold Urllib.urlunparse, Urllib.urlunsplit. simpl. rewrite Hn, Hp. simpl.
  rewrite andb_false_r. by destruct (Py.truthy sch).
Qed.

(** X9: for a base url with scheme http or https and a host, robots.txt is
    always looked up at the root of the site, whatever the path, query string
    and fragment of the base url; and when the base url has no path (or the
    path "/"), the fallback sitemap is "/sitemap.xml" at the root of the
    site. *)
Theorem seed_urls_at_site_root (w : World) (base : string)
  (b : Urllib.ParseResult) :
  Urllib.urlparse w base = Ok b →
  Urllib.scheme b = "http" ∨ Urllib.scheme b = "https" →
  Urllib.netloc b ≠ "" →
  Urllib.urljoin w base "/robots.txt"
  = Ok (Urllib.scheme b +:+ "://" +:+ Urllib.netloc b +:+ "/robots.txt")
  ∧ (Urllib.path b = "" ∨ Urllib.path b = "/" →
     Urllib.urljoin w base "sitemap.xml"
     = Ok (Urllib.scheme b +:+ "://" +:+ Urllib.netloc b +:+ "/sitemap.xml")).
Proof.
  intros Hb Hs Hn. pose proof (urlparse_base_truthy w base b Hb Hn) as Ht.
  pose proof Hn as Hn'. apply truthy_true in Hn'.
  unfold Urllib.urlparse in Hb. destruct b as [sch nl p pa q f].
  simpl in *. split.
  - unfold Urllib.urljoin. rewrite Ht, Hb. simpl.
    destruct Hs as [-> | ->].
    + change (Urllib.urlparse_with w "/robots.txt" "http")
        with (Ok (Urllib.mkParse "http" "" "/robots.txt" "" "" "")).
      simpl. by rewrite urlunparse_site.
    + change (Urllib.urlparse_with w "/robots.txt" "https")
        with (Ok (Urllib.mkParse "https" "" "/robots.txt" "" "" "")).
      simpl. by rewrite urlunparse_site.
  - intros Hp. unfold Urllib.urljoin. rewrite Ht, Hb. simpl.
    destruct Hs as [-> | ->], Hp as [-> | ->].
    + change (Urllib.urlparse_with w "sitemap.xml" "http")
        with (Ok (Urllib.mkParse "http" "" "sitemap.xml" "" "" "")).
      simpl. by rewrite urlunparse_site.
    + change (Urllib.urlparse_with w "sitemap.xml" "http")
        with (Ok (Urllib.mkParse "http" "" "sitemap.xml" "" "" "")).
      simpl. by rewrite urlunparse_site.
    + change (Urllib.urlparse_with w "sitemap.xml" "https")
        with (Ok (Urllib.mkParse "https" "" "sitemap.xml" "" "" "")).
      simpl. by rewrite urlunparse_site.
    + change (Urllib.urlparse_with w "sitemap.xml" "https")
        with (Ok (Urllib.mkParse "https" "" "sitemap.xml" "" "" "")).
      simpl. by rewrite urlunparse_site.
Qed.

Lemma seed_urls_at_site_root_witness :
  Urllib.urljoin offline "https://a.com/shop/list.html?page=2#top" "/robots.txt"
  = Ok "https://a.com/robots.txt".
Proof.
  apply (seed_urls_at_site_root offline
           "https://a.com/shop/list.html?page=2#top"
           (Urllib.mkParse "https" "a.com" "/shop/list.html" "" "page=2" "top")
           eq_refl (or_intror eq_refl)).
  discriminate.
Defined.

(** ** What a run visits and what it returns *)

Lemma elem_of_append_unvisited (visited : gset string) (loc v : string)
    (q : list string) :
  v ∈ append_unvisited visited loc q ↔ v ∈ q ∨ ((v ∉ visited) ∧ v = loc).
Proof.
  unfold append_unvisited. destruct (decide (loc ∈ visited)) as [Hin|Hin].
  - naive_solver.
  - rewrite elem_of_app, list_elem_of_singleton. naive_solver.
Qed.

Lemma elem_of_add_domain (w : World) (loc d : string) (D : gset string) :
  d ∈ add_domain w loc D
  ↔ d ∈ D ∨ ∃ p, Urllib.urlparse w loc = Ok p ∧ Urllib.netloc p = d ∧ d ≠ "".
Proof.
  unfold add_domain. destruct (Urllib.urlparse w loc) as [p|e]; [|naive_solver].
  simpl. destruct (Py.truthy (Urllib.netloc p)) eqn:Ht.
  - rewrite elem_of_union, elem_of_singleton. split.
    + intros [->|?]; [|by left]. right. exists p. split_and!; [done..|].
      intros Hn. by rewrite Hn in Ht.
    + intros [?|(p' & [= <-] & <- & _)]; [by right|by left].
  - split; [by left|]. intros [?|(p' & [= <-] & <- & Hn)]; [done|].
    apply truthy_true in Hn. congruence.
Qed.

Lemma crawler_url_policy (w : World) :
  rule_policy w deep_follows deep_accepts (crawler_url w).
Proof.
  split; intros visited loc st st'; unfold crawler_url, deep_follows,
    deep_accepts; destruct (is_sitemap_url loc); intros [= <-]; simpl;
    naive_solver.
Qed.

Lemma fast_crawler_url_policy (w : World) :
  rule_policy w fast_follows (fast_accepts w) (fast_crawler_url w).
Proof.
  split; intros visited loc st st'; unfold fast_crawler_url, fast_follows,
    fast_accepts; destruct (is_homepage w loc) as [[]|]; simpl; try done;
    intros [= <-]; simpl; naive_solver.
Qed.

Lemma initial_explored (w : World) (follows accepts : string → Prop)
    (seeds : list string) :
  explored w follows accepts seeds (initial_state seeds).
Proof.
  split; simpl.
  - intros u [Hu|Hu]; [set_solver|]. by apply reach_seed.
  - intros u Hu. by right.
  - set_solver.
  - intros d. split; [set_solver|]. intros (u & _ & _ & Hu & _). set_solver.
Qed.

Lemma explored_all (w : World) (follows accepts : string → Prop)
    (seeds : list string) (s : State) :
  explored w follows accepts seeds s → queue s = [] →
  ∀ u, u ∈ visited_sitemaps s ↔ reachable w follows seeds u.
Proof.
  intros [Hreach Hseeds Hlinks _] Hq u. split; [intros; apply Hreach; by left|].
  induction 1 as [u Hu|u root child v _ IH Hf Hc Hl].
  - destruct (Hseeds u Hu) as [?|H]; [done|]. rewrite Hq in H.
    by apply elem_of_nil in H.
  - destruct (Hlinks u root child v IH Hf Hc Hl) as [?|H]; [done|].
    rewrite Hq in H. by apply elem_of_nil in H.
Qed.

Section Exploration.
Context (w : World) (follows accepts : string → Prop).
Context (rule : gset string → string → Found → result Found).
Context (Hpolicy : rule_policy w follows accepts rule).

Lemma on_child_explores visited (st st' : Found) (child : Element) :
  on_child rule visited st child = Ok st' →
  (∀ v, v ∈ fst st' ↔ v ∈ fst st ∨ ((v ∉ visited) ∧ links_to follows child v))
  ∧ (∀ d, d ∈ snd st' ↔ d ∈ snd st ∨ gives_domain w accepts child d).
Proof.
  unfold on_child, links_to, gives_domain.
  destruct (find_loc child) as [loc|]; [|intros [= <-]; naive_solver].
  destruct (String.eqb_spec (local_name (tag child)) "sitemap") as [Hs|Hs].
  { intros [= <-]. simpl. rewrite Hs. split.
    - intros v. rewrite elem_of_append_unvisited. naive_solver.
    - naive_solver. }
  destruct (String.eqb_spec (local_name (tag child)) "url") as [Hu|Hu].
  - intros Hr. split.
    + intros v.
      destruct (policy_queue _ _ _ _ Hpolicy _ _ _ _ Hr) as [[Hf ->]|[Hf ->]].
      * rewrite elem_of_append_unvisited. naive_solver.
      * naive_solver.
    + intros d.
      destruct (policy_domains _ _ _ _ Hpolicy _ _ _ _ Hr) as [[Ha ->]|[Ha ->]].
      * rewrite elem_of_add_domain. naive_solver.
      * naive_solver.
  - intros [= <-]. naive_solver.
Qed.

Lemma for_children_explores visited (l : list Element) : ∀ st st',
  for_children rule visited st l = Ok st' →
  (∀ v, v ∈ fst st'
        ↔ v ∈ fst st
          ∨ ((v ∉ visited) ∧ ∃ child, child ∈ l ∧ links_to follows child v))
  ∧ (∀ d, d ∈ snd st'
          ↔ d ∈ snd st ∨ ∃ child, child ∈ l ∧ gives_domain w accepts child d).
Proof.
  induction l as [|child l IH]; intros st st'; simpl.
  - intros [= <-]. split; intros x; split; [by left| |by left|];
      intros [?|H]; try done; [destruct H as (_ & c & Hc & _)
                              |destruct H as (c & Hc & _)];
      by apply elem_of_nil in Hc.
  - destruct (on_child rule visited st child) as [st1|] eqn:H1; [|done].
    simpl. intros H2.
    destruct (on_child_explores _ _ _ _ H1) as [Hq1 Hd1].
    destruct (IH _ _ H2) as [Hq2 Hd2]. split.
    + intros v. rewrite Hq2, Hq1. setoid_rewrite elem_of_cons. naive_solver.
    + intros d. rewrite Hd2, Hd1. setoid_rewrite elem_of_cons. naive_solver.
Qed.

Context (seeds : list string).

Lemma iteration_explored (s s' : State) :
  explored w follows accepts seeds s → iteration w rule s = Ok s' →
  explored w follows accepts seeds s'.
Proof.
  intros He. pose proof He as [Hreach Hseeds Hlinks Hdom]. unfold iteration.
  destruct (queue s) as [|url rest] eqn:Hq; [by intros [= <-]|].
  assert (reachable w follows seeds url) as Hurl.
  { apply Hreach. right. rewrite ?Hq. by left. }
  destruct (decide (url ∈ visited_sitemaps s)) as [Hin|Hin].
  { intros [= <-]. split; simpl.
    - intros u Hu. apply Hreach. rewrite ?Hq, elem_of_cons. naive_solver.
    - intros u Hu. destruct (Hseeds u Hu) as [?|H]; [by left|].
      rewrite ?Hq, elem_of_cons in H. naive_solver.
    - intros u root child v Hu Hf Hc Hl.
      destruct (Hlinks u root child v Hu Hf Hc Hl) as [?|H]; [by left|].
      rewrite ?Hq, elem_of_cons in H. naive_solver.
    - done. }
  destruct (fetch_and_parse w url) as [root|] eqn:Hfetch.
  - destruct (for_children _ _ _ _) as [st|] eqn:Hc; [|done]. simpl.
    intros [= <-].
    destruct (for_children_explores _ _ _ _ Hc) as [Hq' Hd']. simpl in *.
    split; simpl.
    + intros u [Hu|Hu].
      * apply elem_of_union in Hu as [Hu|Hu].
        -- apply elem_of_singleton in Hu as ->. done.
        -- apply Hreach. by left.
      * apply Hq' in Hu as [Hu|(_ & child & Hchild & Hl)].
        -- apply Hreach. right. rewrite ?Hq. by right.
        -- by apply (reach_link _ _ _ url root child u).
    + intros u Hu. destruct (Hseeds u Hu) as [?|H]; [left; set_solver|].
      rewrite ?Hq, elem_of_cons in H. destruct H as [->|H].
      * left. set_solver.
      * right. apply Hq'. by left.
    + intros u root' child v Hu Hf Hchild Hl.
      destruct (decide (v ∈ {[url]} ∪ visited_sitemaps s)) as [?|Hv];
        [by left|right].
      apply Hq'. apply elem_of_union in Hu as [Hu|Hu].
      * apply elem_of_singleton in Hu as ->.
        assert (root' = root) as -> by congruence.
        right. split; [done|]. by exists child.
      * destruct (Hlinks u root' child v Hu Hf Hchild Hl) as [?|H];
          [set_solver|].
        rewrite ?Hq, elem_of_cons in H. destruct H as [->|H]; [set_solver|].
        by left.
    + intros d. rewrite Hd', Hdom. unfold listed_domain. split.
      * intros [(u & r & c & Hu & H)|(c & Hc' & Hg)].
        -- exists u, r, c. split; [set_solver|done].
        -- exists url, root, c. split; [set_solver|done].
      * intros (u & r & c & Hu & Hf & Hc' & Hg).
        apply elem_of_union in Hu as [Hu|Hu].
        -- apply elem_of_singleton in Hu as ->.
           assert (r = root) as -> by congruence. right. by exists c.
        -- left. by exists u, r, c.
  - intros [= <-]. split; simpl.
    + intros u [Hu|Hu].
      * apply elem_of_union in Hu as [Hu|Hu].
        -- apply elem_of_singleton in Hu as ->. done.
        -- apply Hreach. by left.
      * apply Hreach. right. rewrite ?Hq. by right.
    + intros u Hu. destruct (Hseeds u Hu) as [?|H]; [left; set_solver|].
      rewrite ?Hq, elem_of_cons in H. destruct H as [->|H]; [|by right].
      left. set_solver.
    + intros u root child v Hu Hf Hchild Hl.
      apply elem_of_union in Hu as [Hu|Hu].
      * apply elem_of_singleton in Hu as ->. congruence.
      * destruct (Hlinks u root child v Hu Hf Hchild Hl) as [?|H];
          [left; set_solver|].
        rewrite ?Hq, elem_of_cons in H. destruct H as [->|H]; [|by right].
        left. set_solver.
    + intros d. rewrite Hdom. unfold listed_domain. split.
      * intros (u & r & c & Hu & H). exists u, r, c. split; [set_solver|done].
      * intros (u & r & c & Hu & Hf & H).
        apply elem_of_union in Hu as [Hu|Hu].
        -- apply elem_of_singleton in Hu as ->. congruence.
        -- by exists u, r, c.
Qed.

Lemma iterations_explored (n : nat) : ∀ s s',
  explored w follows accepts seeds s → iterations w rule n s = Ok s' →
  explored w follows accepts seeds s'.
Proof.
  induction n as [|n IH]; intros s s' He; simpl; [by intros [= <-]|].
  destruct (iteration w rule s) as [s1|] eqn:Hi; [|done]. simpl.
  apply IH. by apply (iteration_explored s s1).
Qed.

Lemma while_queue_explored (fuel : nat) : ∀ s s',
  explored w follows accepts seeds s →
  while_queue w rule fuel s = Some (Ok s') →
  explored w follows accepts seeds s' ∧ queue s' = [].
Proof.
  induction fuel as [|fuel IH]; intros s s' He; simpl.
  - destruct (queue s) eqn:Hq; [by intros [= <-]|done].
  - destruct (queue s) eqn:Hq; [by intros [= <-]|].
    destruct (iteration w rule s) as [s1|] eqn:Hi; [|done].
    apply IH. by apply (iteration_explored s s1).
Qed.

Lemma traversal_exact (fuel : nat) (res : list string) :
  traversal w rule fuel seeds = Some (Ok res) →
  ∀ d, d ∈ res ↔ listed_domain w accepts (reachable w follows seeds) d.
Proof.
  intros Ht d. apply traversal_result in Ht as (s & Hs & ->).
  destruct (sorted_spec (elements (collected_domains s))) as [_ Hperm].
  rewrite Hperm, elem_of_elements.
  destruct (while_queue_explored fuel _ s
              (initial_explored w follows accepts seeds) Hs) as [He Hq].
  rewrite (explored_domains _ _ _ _ _ He). unfold listed_domain.
  pose proof (explored_all w follows accepts seeds s He Hq) as Hall.
  split; intros (u & r & c & Hu & H); exists u, r, c; (split; [|done]);
    by apply Hall.
Qed.

End Exploration.

Lemma script_policy_spec (w : World) follows accepts rule :
  script_policy w follows accepts rule →
  rule_policy w follows accepts rule ∧ rule_sound rule.
Proof.
  intros []; split; auto using crawler_url_policy, fast_crawler_url_policy,
    crawler_url_sound, fast_crawler_url_sound.
Qed.

(** X10: what the deep crawler returns, when it returns, is exactly the set
    of the domains listed in the sitemap graph: [d] is in the result if and
    only if some document that can be reached from the seeds (through
    [sitemap] entries and through [url] entries whose loc looks like a
    sitemap) and fetched has a [url] entry whose loc does not look like a
    sitemap, parses, and has the netloc [d], not empty. *)
Theorem crawler_output_exact (w : World) (fuel : nat)
    (seeds res : list string) :
  crawler w fuel seeds = Some (Ok res) →
  ∀ d, d ∈ res
       ↔ listed_domain w deep_accepts (reachable w deep_follows seeds) d.
Proof.
  apply (traversal_exact w deep_follows deep_accepts (crawler_url w)
           (crawler_url_policy w)).
Qed.

Lemma crawler_output_exact_witness :
  crawler (serving scenario_docs) 3 ["https://a.com/sitemap_index.xml"]
  = Some (Ok ["a.com"; "blog.a.com"])
  ∧ listed_domain (serving scenario_docs) deep_accepts
      (reachable (serving scenario_docs) deep_follows
         ["https://a.com/sitemap_index.xml"]) "blog.a.com".
Proof.
  split; [vm_compute; reflexivity|].
  apply (crawler_output_exact (serving scenario_docs) 3
           ["https://a.com/sitemap_index.xml"] ["a.com"; "blog.a.com"]).
  - vm_compute. reflexivity.
  - apply list_elem_of_further, list_elem_of_here.
Defined.

(** X11: what the fast crawler returns, when it returns, is exactly the set
    of the homepage domains of the sitemap graph: [d] is in the result if
    and only if some document that can be reached from the seeds through
    [sitemap] entries alone and fetched has a [url] entry whose loc is a
    homepage and has the netloc [d], not empty. *)
Theorem fast_crawler_output_exact (w : World) (fuel : nat)
    (seeds res : list string) :
  fast_crawler w fuel seeds = Some (Ok res) →
  ∀ d, d ∈ res
       ↔ listed_domain w (fast_accepts w) (reachable w fast_follows seeds) d.
Proof.
  apply (traversal_exact w fast_follows (fast_accepts w) (fast_crawler_url w)
           (fast_crawler_url_policy w)).
Qed.

Lemma fast_crawler_output_exact_witness :
  fast_crawler (serving scenario_docs) 3 ["https://a.com/sitemap_index.xml"]
  = Some (Ok ["a.com"])
  ∧ ¬ listed_domain (serving scenario_docs) (fast_accepts (serving scenario_docs))
        (reachable (serving scenario_docs) fast_follows
           ["https://a.com/sitemap_index.xml"]) "blog.a.com".
Proof.
  split; [vm_compute; reflexivity|]. intros H.
  apply (fast_crawler_output_exact (serving scenario_docs) 3
           ["https://a.com/sitemap_index.xml"] ["a.com"]) in H.
  - apply list_elem_of_singleton in H. discriminate H.
  - vm_compute. reflexivity.
Defined.

(** X12: a crawler hands to [fetch_and_parse] only urls that can be reached
    from the seeds, at every point of a run; and when the loop ends, the urls
    it has fetched, each once, are exactly the urls that can be reached. *)
Theorem crawl_fetches_reachable (w : World) (seeds : list string)
    follows accepts rule :
  script_policy w follows accepts rule →
  (∀ n sn u, iterations w rule n (initial_state seeds) = Ok sn →
     u ∈ fetched sn → reachable w follows seeds u)
  ∧ (∀ fuel s, while_queue w rule fuel (initial_state seeds) = Some (Ok s) →
       NoDup (fetched s)
       ∧ ∀ u, u ∈ fetched s ↔ reachable w follows seeds u).
Proof.
  intros Hp. apply script_policy_spec in Hp as [Hpol Hsound]. split.
  - intros n sn u Hi Hu.
    pose proof (iterations_explored w follows accepts rule Hpol seeds n _ _
                  (initial_explored w follows accepts seeds) Hi) as He.
    pose proof (iterations_consistent w rule Hsound n _ _
                  (initial_consistent seeds) Hi) as [_ Hfv].
    apply (explored_reach _ _ _ _ _ He). left. by apply Hfv.
  - intros fuel s Hw.
    destruct (while_queue_explored w follows accepts rule Hpol seeds fuel _ s
                (initial_explored w follows accepts seeds) Hw) as [He Hq].
    apply while_queue_iterations in Hw as [Hi _].
    pose proof (iterations_consistent w rule Hsound fuel _ _
                  (initial_consistent seeds) Hi) as [Hn Hfv].
    split; [done|]. intros u. rewrite Hfv.
    by apply (explored_all w follows accepts seeds s).
Qed.

Lemma crawl_fetches_reachable_witness :
  reachable (serving diamond_docs) deep_follows ["https://a.com/A.xml"]
    "https://a.com/C.xml".
Proof.
  destruct (crawl_fetches_reachable (serving diamond_docs)
              ["https://a.com/A.xml"] deep_follows deep_accepts
              (crawler_url (serving diamond_docs))
              (deep_policy (serving diamond_docs))) as [_ Hall].
  destruct (while_queue (serving diamond_docs)
              (crawler_url (serving diamond_docs)) 4
              (initial_state ["https://a.com/A.xml"])) as [[s|]|] eqn:Hrun;
    [|vm_compute in Hrun; discriminate..].
  destruct (Hall 4 s Hrun) as [_ Hiff]. apply Hiff.
  vm_compute in Hrun. injection Hrun as <-.
  apply list_elem_of_further, list_elem_of_further, list_elem_of_here.
Defined.

(** ** Termination and its bound *)

(** C4, as stated: the bound by the number of distinct urls does not hold
    for the passes of the loop.  In the diamond (A lists B and C, B lists C)
    C is appended twice before its first visit: the run takes four passes
    for three distinct urls and three fetches, and three passes leave the
    queue not empty. *)
Theorem passes_exceed_distinct_urls :
  ∃ s,
    while_queue (serving diamond_docs) (crawler_url (serving diamond_docs)) 4
      (initial_state ["https://a.com/A.xml"]) = Some (Ok s)
    ∧ size (visited_sitemaps s) = 3
    ∧ length (fetched s) = 3
    ∧ while_queue (serving diamond_docs) (crawler_url (serving diamond_docs))
        3 (initial_state ["https://a.com/A.xml"]) = None
    ∧ ¬ finishes_within_distinct_urls (serving diamond_docs)
          (crawler_url (serving diamond_docs)) ["https://a.com/A.xml"].
Proof.
  destruct (while_queue (serving diamond_docs)
              (crawler_url (serving diamond_docs)) 4
              (initial_state ["https://a.com/A.xml"])) as [[s|]|] eqn:Hrun;
    [|vm_compute in Hrun; discriminate..].
  exists s. split; [done|].
  assert (size (visited_sitemaps s) = 3) as Hsize.
  { vm_compute in Hrun. injection Hrun as <-. vm_compute. reflexivity. }
  assert (while_queue (serving diamond_docs)
            (crawler_url (serving diamond_docs)) 3
            (initial_state ["https://a.com/A.xml"]) = None) as Hshort.
  { vm_compute. reflexivity. }
  split_and!; [done| |done|].
  - vm_compute in Hrun. injection Hrun as <-. reflexivity.
  - intros H. specialize (H 4 s Hrun). rewrite Hsize, Hshort in H.
    discriminate.
Qed.

(** C4, amended: on a finite sitemap graph the loop of either script ends
    within [len(start_sitemaps)] plus the number of entries of the documents
    that can be fetched passes, by returning or (fast crawler only) by
    raising.  When the rule returns on the documents of the graph, which the
    deep rule always does and the fast rule does when [is_homepage] returns
    on every loc, the loop returns with the queue empty; the fetches are as
    many as the distinct urls encountered, one for each, and more passes
    change nothing. *)
Theorem traversal_terminates (w : World) (sites seeds : list string) :
  finite_graph w sites →
  (∀ rule, script_rule w rule →
     ∃ r, ∀ fuel, budget w sites seeds ≤ fuel →
            while_queue w rule fuel (initial_state seeds) = Some r)
  ∧ returns_on_graph w (crawler_url w)
  ∧ (homepage_check_returns w → returns_on_graph w (fast_crawler_url w))
  ∧ (∀ rule, script_rule w rule → returns_on_graph w rule →
       ∃ s, (∀ fuel, budget w sites seeds ≤ fuel →
               while_queue w rule fuel (initial_state seeds) = Some (Ok s))
            ∧ queue s = []
            ∧ NoDup (fetched s)
            ∧ encountered s = visited_sitemaps s
            ∧ length (fetched s) = size (encountered s)
            ∧ ∀ n sn, iterations w rule n (initial_state seeds) = Ok sn →
                encountered sn ⊆ encountered s).
Proof.
  intros Hfin. split_and!.
  - intros rule Hrule. apply script_rule_sound in Hrule.
    destruct (while_queue_terminates w rule sites Hrule Hfin
                (budget w sites seeds) (initial_state seeds)) as [r Hr].
    { by rewrite initial_measure. }
    exists r. intros fuel Hle.
    by apply (while_queue_more_fuel w _ (budget w sites seeds)).
  - apply crawler_returns_on_graph.
  - apply fast_returns_on_graph.
  - intros rule Hrule Hret. apply script_rule_sound in Hrule.
    destruct (while_queue_returns w rule sites Hrule Hfin
                (budget w sites seeds) (initial_state seeds) Hret) as [s Hs].
    { by rewrite initial_measure. }
    exists s.
    destruct (finished_run w rule seeds _ s Hrule Hs)
      as (Hq & Hn & Hl & _ & Henc).
    assert (encountered s = visited_sitemaps s) as He.
    { unfold encountered. rewrite Hq. simpl. set_solver. }
    split_and!; try done.
    + intros fuel Hle.
      by apply (while_queue_more_fuel w _ (budget w sites seeds)).
    + by rewrite He.
    + intros n sn Hsn. rewrite He. by apply (Henc n).
Qed.

Lemma traversal_terminates_witness :
  ∃ s,
    (∀ fuel,
       budget (serving diamond_docs) (map fst diamond_docs)
         ["https://a.com/A.xml"] ≤ fuel →
       while_queue (serving diamond_docs) (crawler_url (serving diamond_docs))
         fuel (initial_state ["https://a.com/A.xml"]) = Some (Ok s))
    ∧ queue s = []
    ∧ NoDup (fetched s)
    ∧ encountered s = visited_sitemaps s
    ∧ length (fetched s) = size (encountered s)
    ∧ ∀ n sn,
        iterations (serving diamond_docs) (crawler_url (serving diamond_docs))
          n (initial_state ["https://a.com/A.xml"]) = Ok sn →
        encountered sn ⊆ encountered s.
Proof.
  destruct (traversal_terminates (serving diamond_docs) (map fst diamond_docs)
              ["https://a.com/A.xml"] (serving_finite diamond_docs))
    as (_ & Hret & _ & Hrun).
  apply (Hrun (crawler_url (serving diamond_docs)) (or_introl eq_refl) Hret).
Defined.

(** ** The end-to-end scenario *)

Lemma scenario_loop (w : World) rule (D : gset string) :
  scenario w →
  (∀ e2 e3 visited,
     is_entry "url" "https://a.com/" e2 →
     is_entry "url" "https://blog.a.com/post" e3 →
     for_children rule visited ([], ∅) [e2; e3] = Ok ([], D)) →
  ∃ s, while_queue w rule 2 (initial_state ["https://a.com/sitemap_index.xml"])
       = Some (Ok s)
       ∧ queue s = [] ∧ collected_domains s = D
       ∧ fetched s = ["https://a.com/sitemap_index.xml";
                      "https://a.com/sitemap1.xml"].
Proof.
  intros (index & urlset & e1 & e2 & e3 & Hf1 & Hc1 & [Ht1 Hl1] & Hf2 & Hc2
          & He2 & He3) Hurls.
  set (seed := "https://a.com/sitemap_index.xml") in *.
  set (next := "https://a.com/sitemap1.xml") in *.
  assert (seed ∉ (∅ : gset string)) as Hv1 by set_solver.
  assert (next ∉ ({[seed]} ∪ ∅ : gset string)) as Hv2.
  { intros H. apply elem_of_union in H as [H|H]; [|set_solver].
    apply elem_of_singleton in H. discriminate H. }
  pose proof (iteration_fetched w rule (initial_state [seed]) seed [] index
                eq_refl Hv1 Hf1) as Hi1.
  rewrite Hc1 in Hi1. simpl in Hi1.
  rewrite (on_child_sitemap rule _ _ e1 _ Ht1 Hl1) in Hi1. simpl in Hi1.
  unfold append_unvisited in Hi1. rewrite decide_False in Hi1 by done.
  simpl in Hi1.
  pose proof (iteration_fetched w rule
                (mkState [next] ({[seed]} ∪ ∅) ∅ 1 [seed]) next [] urlset
                eq_refl Hv2 Hf2) as Hi2.
  rewrite Hc2 in Hi2. simpl collected_domains in Hi2.
  rewrite (Hurls e2 e3 _ He2 He3) in Hi2. simpl in Hi2.
  exists (mkState [] ({[next]} ∪ ({[seed]} ∪ ∅)) D 2 [seed; next]).
  split_and!; try reflexivity.
  change (while_queue w rule 2 (initial_state [seed]))
    with (match iteration w rule (initial_state [seed]) with
          | Ok s' => while_queue w rule 1 s'
          | Raise e => Some (Raise e)
          end).
  rewrite Hi1.
  change (while_queue w rule 1 (mkState [next] ({[seed]} ∪ ∅) ∅ 1 [seed]))
    with (match iteration w rule (mkState [next] ({[seed]} ∪ ∅) ∅ 1 [seed]) with
          | Ok s' => while_queue w rule 0 s'
          | Raise e => Some (Raise e)
          end).
  rewrite Hi2. reflexivity.
Qed.

(** C1: in the scenario, whatever else the world contains, the deep crawler
    returns ["a.com"; "blog.a.com"] and the fast crawler returns ["a.com"],
    as soon as two passes of the loop are allowed; both lists are in
    ascending order without repeats, and the text displayed is their
    members joined by newlines. *)
Theorem end_to_end_scenario (w : World) (fuel : nat) :
  scenario w → 2 ≤ fuel →
  crawler w fuel ["https://a.com/sitemap_index.xml"]
  = Some (Ok ["a.com"; "blog.a.com"])
  ∧ fast_crawler w fuel ["https://a.com/sitemap_index.xml"]
    = Some (Ok ["a.com"])
  ∧ StronglySorted String.le ["a.com"; "blog.a.com"]
  ∧ NoDup ["a.com"; "blog.a.com"]
  ∧ results_string ["a.com"; "blog.a.com"]
    = "a.com" +:+ String "010" "blog.a.com".
Proof.
  intros Hw Hfuel. split_and!.
  - destruct (scenario_loop w (crawler_url w)
                ({["blog.a.com"]} ∪ ({["a.com"]} ∪ ∅)) Hw)
      as (s & Hs & _ & Hd & _).
    { intros e2 e3 visited [Ht2 Hl2] [Ht3 Hl3]. simpl.
      rewrite (on_child_url _ _ _ e2 _ Ht2 Hl2). simpl.
      rewrite (on_child_url _ _ _ e3 _ Ht3 Hl3). reflexivity. }
    unfold crawler, traversal.
    rewrite (while_queue_more_fuel w _ 2 _ _ fuel Hs Hfuel), Hd.
    vm_compute. reflexivity.
  - destruct (scenario_loop w (fast_crawler_url w) ({["a.com"]} ∪ ∅) Hw)
      as (s & Hs & _ & Hd & _).
    { intros e2 e3 visited [Ht2 Hl2] [Ht3 Hl3]. simpl.
      rewrite (on_child_url _ _ _ e2 _ Ht2 Hl2). simpl.
      rewrite (on_child_url _ _ _ e3 _ Ht3 Hl3). reflexivity. }
    unfold fast_crawler, traversal.
    rewrite (while_queue_more_fuel w _ 2 _ _ fuel Hs Hfuel), Hd.
    vm_compute. reflexivity.
  - repeat constructor.
  - apply NoDup_cons. split; [|apply NoDup_singleton].
    intros H. apply list_elem_of_singleton in H. discriminate H.
  - reflexivity.
Qed.

Lemma scenario_docs_scenario : scenario (serving scenario_docs).
Proof.
  exists (Elem (sitemaps_ns +:+ "sitemapindex") None
            [ns_entry "sitemap" "https://a.com/sitemap1.xml"]),
    (Elem (sitemaps_ns +:+ "urlset") None
       [ns_entry "url" "https://a.com/";
        ns_entry "url" "https://blog.a.com/post"]),
    (ns_entry "sitemap" "https://a.com/sitemap1.xml"),
    (ns_entry "url" "https://a.com/"),
    (ns_entry "url" "https://blog.a.com/post").
  unfold is_entry. split_and!; reflexivity.
Qed.

Lemma end_to_end_scenario_witness :
  crawler (serving scenario_docs) 2 ["https://a.com/sitemap_index.xml"]
  = Some (Ok ["a.com"; "blog.a.com"])
  ∧ fast_crawler (serving scenario_docs) 2 ["https://a.com/sitemap_index.xml"]
    = Some (Ok ["a.com"])
  ∧ StronglySorted String.le ["a.com"; "blog.a.com"]
  ∧ NoDup ["a.com"; "blog.a.com"]
  ∧ results_string ["a.com"; "blog.a.com"]
    = "a.com" +:+ String "010" "blog.a.com".
Proof.
  apply (end_to_end_scenario (serving scenario_docs) 2 scenario_docs_scenario).
  lia.
Defined.
